(** * Identity reconciliation service: model and verified properties

    A shallow embedding of [src/identityServcise.ts] (class
    [IdentityService]).  The Contact table is a list of rows kept in
    storage order; every [pool.query]/[client.query] call is a statement
    of a small state-and-error monad over the store, so that store
    failures, transactions and the number of statements issued are all
    visible to the theorems.  The SQL texts the service sends are kept
    as a small syntax with numbered placeholders, executed against the
    bound parameter array the way PostgreSQL executes them. *)

From Stdlib Require Import ZArith List String Bool Lia Arith.
From Stdlib Require Import Permutation Sorted.
Import ListNotations.

Local Open Scope Z_scope.

(* ================================================================= *)
(** ** Data model *)

Inductive LinkPrecedence : Type :=
| primary
| secondary.

Definition LinkPrecedence_eqb (a b : LinkPrecedence) : bool :=
  match a, b with
  | primary, primary => true
  | secondary, secondary => true
  | _, _ => false
  end.

(** Modelled from the spec: the [Contact] row type, which the service
    imports from its database module; the fields are those of section 3
    of the specification, at the types the service reads them with.
    Timestamps are milliseconds, as read through [Date.getTime()]. *)
Record Contact : Type := mkContact {
  id : Z;
  phoneNumber : option string;
  email : option string;
  linkedId : option Z;
  linkPrecedence : LinkPrecedence;
  createdAt : Z;
  updatedAt : Z;
  deletedAt : option Z
}.

(** [IdentifyRequest]: both fields are optional strings. *)
Record IdentifyRequest : Type := mkRequest {
  reqEmail : option string;
  reqPhoneNumber : option string
}.

(** The [contact] object of an [IdentifyResponse]. *)
Record IdentifyResponse : Type := mkResponse {
  primaryContatctId : Z;
  emails : list string;
  phoneNumbers : list string;
  secondaryContactIds : list Z
}.

(** Errors a request can end with. *)
Inductive Error : Type :=
| ValidationError      (* 'Either email or phoneNumber must be provided' *)
| TypeError            (* property read on [undefined] *)
| SqlSyntaxError       (* a query text the store cannot parse *)
| BindError            (* bind message supplies m parameters, statement requires n *)
| StoreError.          (* the store failed to execute a statement *)

Inductive Res (A : Type) : Type :=
| Ok (a : A)
| Err (e : Error).

Arguments Ok {A} a.
Arguments Err {A} e.

(* ================================================================= *)
(** ** JavaScript value conventions used by the service *)

(** Truthiness of an optional string: [undefined], [null] and the empty
    string are falsy. *)
Definition truthy (s : option string) : bool :=
  match s with
  | Some v => negb (String.eqb v EmptyString)
  | None => false
  end.

(** [x || null]. *)
Definition orNull (s : option string) : option string :=
  if truthy s then s else None.

(** Truthiness of an optional number ([if (contact.linkedId)]). *)
Definition truthyNum (z : option Z) : bool :=
  match z with
  | Some v => negb (v =? 0)
  | None => false
  end.

(** [===] on nullable strings. *)
Definition strictEqStr (a b : option string) : bool :=
  match a, b with
  | Some x, Some y => String.eqb x y
  | None, None => true
  | _, _ => false
  end.

(** SQL [col = $n]: never true when either side is NULL. *)
Definition sqlEqStr (col : option string) (param : option string) : bool :=
  match col, param with
  | Some x, Some y => String.eqb x y
  | _, _ => false
  end.

Definition sqlEqNum (col : option Z) (param : option Z) : bool :=
  match col, param with
  | Some x, Some y => x =? y
  | _, _ => false
  end.

(** SQL [col IN (...)]. *)
Definition sqlIn (col : option Z) (params : list Z) : bool :=
  match col with
  | Some x => existsb (Z.eqb x) params
  | None => false
  end.

Definition isNull {A : Type} (o : option A) : bool :=
  match o with
  | Some _ => false
  | None => true
  end.

(* ================================================================= *)
(** ** Ordering by [createdAt] *)

(** Stable insertion: [x] comes from an earlier position than every
    element of [l], so it goes in front of the elements it ties with. *)
Fixpoint insertByCreatedAt (x : Contact) (l : list Contact) : list Contact :=
  match l with
  | [] => [x]
  | y :: ys =>
      if createdAt x <=? createdAt y then x :: y :: ys
      else y :: insertByCreatedAt x ys
  end.

(** [.sort((a, b) => a.createdAt.getTime() - b.createdAt.getTime())] and
    [ORDER BY createdAt ASC]: a stable sort on [createdAt] alone. *)
Fixpoint sortByCreatedAt (l : list Contact) : list Contact :=
  match l with
  | [] => []
  | x :: xs => insertByCreatedAt x (sortByCreatedAt xs)
  end.

(* ================================================================= *)
(** ** The store *)

(** [rows] is the table in storage order, [nextId] the next value of the
    id sequence, [now] the value of CURRENT_TIMESTAMP, [txn] the rows
    saved by an open BEGIN, [faults] the number of statements that will
    still succeed before one fails ([None]: the store never fails) and
    [issued] the number of statements sent so far. *)
Record World : Type := mkWorld {
  rows : list Contact;
  nextId : Z;
  now : Z;
  txn : option (list Contact);
  faults : option nat;
  issued : nat
}.

Definition M (A : Type) : Type := World -> World * Res A.

Definition ret {A : Type} (a : A) : M A := fun w => (w, Ok a).

Definition throw {A : Type} (e : Error) : M A := fun w => (w, Err e).

Definition bind {A B : Type} (m : M A) (k : A -> M B) : M B :=
  fun w =>
    match m w with
    | (w', Ok a) => k a w'
    | (w', Err e) => (w', Err e)
    end.

Notation "x <- m ;; k" := (bind m (fun x => k))
  (at level 61, m at next level, right associativity).
Notation "m ;;; k" := (bind m (fun _ => k))
  (at level 61, right associativity).

Definition liftRes {A : Type} (r : Res A) : M A := fun w => (w, r).

(** [try { body } catch (error) { handler; throw error }]. *)
Definition tryCatchRethrow {A : Type} (body : M A) (handler : M unit) : M A :=
  fun w =>
    match body w with
    | (w', Ok a) => (w', Ok a)
    | (w', Err e) =>
        match handler w' with
        | (w'', Ok _) => (w'', Err e)
        | (w'', Err e') => (w'', Err e')
        end
    end.

Fixpoint forEachM {A B : Type} (f : A -> M B) (l : list A) : M (list B) :=
  match l with
  | [] => ret []
  | x :: xs => y <- f x ;; ys <- forEachM f xs ;; ret (y :: ys)
  end.

(** Sending one statement: it is counted, and it fails when the fault
    budget is exhausted (the failure is consumed). *)
Definition statement : M unit :=
  fun w =>
    match faults w with
    | None =>
        (mkWorld (rows w) (nextId w) (now w) (txn w) None (S (issued w)), Ok tt)
    | Some O =>
        (mkWorld (rows w) (nextId w) (now w) (txn w) None (S (issued w)), Err StoreError)
    | Some (S n) =>
        (mkWorld (rows w) (nextId w) (now w) (txn w) (Some n) (S (issued w)), Ok tt)
    end.

Definition setRows (r : list Contact) (w : World) : World :=
  mkWorld r (nextId w) (now w) (txn w) (faults w) (issued w).

(* ----------------------------------------------------------------- *)
(** *** Statements and bound parameters *)

(** A bound parameter; node-postgres sends [undefined] and [null] as NULL. *)
Inductive SqlValue : Type :=
| VNull
| VNum (z : Z)
| VStr (s : string).

Definition strParam (s : option string) : SqlValue :=
  match s with
  | Some v => VStr v
  | None => VNull
  end.

(** The value bound to placeholder [$i]. *)
Definition param (params : list SqlValue) (i : nat) : SqlValue :=
  nth (i - 1) params VNull.

Definition asStr (v : SqlValue) : option string :=
  match v with
  | VStr s => Some s
  | _ => None
  end.

Definition asNum (v : SqlValue) : option Z :=
  match v with
  | VNum z => Some z
  | _ => None
  end.

Definition asPrecedence (v : SqlValue) : option LinkPrecedence :=
  match v with
  | VStr s =>
      if String.eqb s "primary"%string then Some primary
      else if String.eqb s "secondary"%string then Some secondary
      else None
  | _ => None
  end.

(** One disjunct of a WHERE clause, with the placeholder numbers it uses. *)
Inductive Cond : Type :=
| EmailEq (i : nat)                 (* email = $i *)
| PhoneNumberEq (i : nat)           (* phoneNumber = $i *)
| IdEq (i : nat)                    (* id = $i *)
| LinkedIdEq (i : nat)              (* linkedId = $i *)
| IdIn (placeholders : list nat)    (* id IN ($i, ...) *)
| LinkedIdIn (placeholders : list nat).  (* linkedId IN ($i, ...) *)

(** The statements of the service. *)
Inductive Sql : Type :=
| SelectContacts (conditions : list Cond)
    (* SELECT * FROM Contact WHERE (c1 OR c2 ...) AND deletedAt IS NULL
       ORDER BY createdAt ASC *)
| InsertContact (linked : option nat) (prec : LinkPrecedence)
    (* INSERT INTO Contact (phoneNumber, email, linkedId, linkPrecedence,
       createdAt, updatedAt) VALUES ($1, $2, null | $3, 'primary' | 'secondary',
       CURRENT_TIMESTAMP, CURRENT_TIMESTAMP) RETURNING * *)
| UpdateDemote
    (* UPDATE Contact SET linkedId = $1, linkPrecedence = $2,
       updatedAt = CURRENT_TIMESTAMP WHERE id = $3 *)
| UpdateRepoint
    (* UPDATE Contact SET linkedId = $1, updatedAt = CURRENT_TIMESTAMP
       WHERE linkedId = $2 *)
| Begin
| Commit
| Rollback.

Definition condPlaceholders (c : Cond) : list nat :=
  match c with
  | EmailEq i | PhoneNumberEq i | IdEq i | LinkedIdEq i => [i]
  | IdIn l | LinkedIdIn l => l
  end.

(** The number of parameters a statement requires: its highest [$i]. *)
Definition requiredParams (q : Sql) : nat :=
  match q with
  | SelectContacts conditions =>
      fold_right Nat.max O (flat_map condPlaceholders conditions)
  | InsertContact None _ => 2
  | InsertContact (Some i) _ => Nat.max 2 i
  | UpdateDemote => 3
  | UpdateRepoint => 2
  | Begin | Commit | Rollback => 0
  end.

(** An empty WHERE group and an empty IN list do not parse. *)
Definition condParses (c : Cond) : bool :=
  match c with
  | IdIn [] | LinkedIdIn [] => false
  | _ => true
  end.

Definition parses (q : Sql) : bool :=
  match q with
  | SelectContacts [] => false
  | SelectContacts conditions => forallb condParses conditions
  | _ => true
  end.

Definition condHolds (params : list SqlValue) (c : Contact) (d : Cond) : bool :=
  match d with
  | EmailEq i => sqlEqStr (email c) (asStr (param params i))
  | PhoneNumberEq i => sqlEqStr (phoneNumber c) (asStr (param params i))
  | IdEq i => sqlEqNum (Some (id c)) (asNum (param params i))
  | LinkedIdEq i => sqlEqNum (linkedId c) (asNum (param params i))
  | IdIn l => existsb (fun i => sqlEqNum (Some (id c)) (asNum (param params i))) l
  | LinkedIdIn l => existsb (fun i => sqlEqNum (linkedId c) (asNum (param params i))) l
  end.

Definition notDeleted (c : Contact) : bool := isNull (deletedAt c).

(** The result of a SELECT of the service: the rows that satisfy the WHERE
    clause, ordered by [createdAt].  PostgreSQL returns rows tied on
    [createdAt] in no specified order; the stable sort used here returns
    them in the order of the list [rows].  Properties of a result are
    therefore stated as membership and sortedness, which hold of every
    order of the ties. *)
Definition selectRows (conditions : list Cond) (params : list SqlValue)
    (table : list Contact) : list Contact :=
  sortByCreatedAt
    (filter (fun c => existsb (condHolds params c) conditions && notDeleted c) table).

(** Modelled from the spec: the defaults of the Contact table, which is
    created outside the service.  The id is assigned by the store on
    creation, here from a sequence, and [deletedAt] is NULL until a soft
    delete (section 3). *)
Definition newRow (w : World) (phone mail : option string) (link : option Z)
    (prec : LinkPrecedence) : Contact :=
  mkContact (nextId w) phone mail link prec (now w) (now w) None.

Definition demote (newLink : option Z) (prec : LinkPrecedence) (t : Z) (c : Contact) : Contact :=
  mkContact (id c) (phoneNumber c) (email c) newLink prec (createdAt c) t (deletedAt c).

Definition repoint (newLink : option Z) (t : Z) (c : Contact) : Contact :=
  mkContact (id c) (phoneNumber c) (email c) newLink (linkPrecedence c) (createdAt c) t
    (deletedAt c).

(** An UPDATE of the service, applied row by row.  The position of a row
    in the list [rows] has no counterpart in PostgreSQL, which may write
    the new version of an updated row elsewhere; properties of a table
    after an update are stated as membership or up to permutation. *)
Definition updateRows (cond : Contact -> bool) (f : Contact -> Contact)
    (table : list Contact) : list Contact :=
  map (fun c => if cond c then f c else c) table.

(** Executing a parsed and bound statement; the result is [result.rows]. *)
Definition execute (q : Sql) (params : list SqlValue) : M (list Contact) :=
  fun w =>
    match q with
    | SelectContacts conditions => (w, Ok (selectRows conditions params (rows w)))
    | InsertContact linked prec =>
        let link := match linked with
                    | Some i => asNum (param params i)
                    | None => None
                    end in
        let c := newRow w (asStr (param params 1)) (asStr (param params 2)) link prec in
        (mkWorld (rows w ++ [c]) (nextId w + 1) (now w) (txn w) (faults w) (issued w),
         Ok [c])
    | UpdateDemote =>
        match asPrecedence (param params 2) with
        | Some prec =>
            (setRows (updateRows (fun c => condHolds params c (IdEq 3))
                        (demote (asNum (param params 1)) prec (now w)) (rows w)) w,
             Ok [])
        | None => (w, Err StoreError)
        end
    | UpdateRepoint =>
        (setRows (updateRows (fun c => condHolds params c (LinkedIdEq 2))
                    (repoint (asNum (param params 1)) (now w)) (rows w)) w,
         Ok [])
    | Begin =>
        (mkWorld (rows w) (nextId w) (now w) (Some (rows w)) (faults w) (issued w), Ok [])
    | Commit =>
        (mkWorld (rows w) (nextId w) (now w) None (faults w) (issued w), Ok [])
    | Rollback =>
        match txn w with
        | Some saved =>
            (mkWorld saved (nextId w) (now w) None (faults w) (issued w), Ok [])
        | None => (w, Ok [])
        end
    end.

(** [pool.query(text, params)] and [client.query(text, params)] of the
    node-postgres pool the service imports.  A statement sent with a
    parameter array goes through PostgreSQL's parse, bind and execute
    steps: a text that does not parse is a syntax error; a bind whose
    number of values is not the number of parameters of the parsed text is
    refused (bind message supplies m parameters, but prepared statement
    requires n); otherwise the statement runs. *)
Definition query (q : Sql) (params : list SqlValue) : M (list Contact) :=
  statement ;;;
  if negb (parses q) then throw SqlSyntaxError
  else if negb (List.length params =? requiredParams q)%nat then throw BindError
  else execute q params.

(* ================================================================= *)
(** ** The service: [IdentityService] *)

(** What the in-memory array [allLinkedContacts] can hold: rows read from
    the store and, once line 45 has pushed it, the value returned by
    [createSecondaryContact], which is the array [result.rows] and not a
    row.  Every Contact property read on that array is [undefined]. *)
Inductive Item : Type :=
| Row (c : Contact)
| RowsArray (l : list Contact).

(** [c.linkPrecedence === 'primary'] *)
Definition isPrimary (c : Contact) : bool :=
  LinkPrecedence_eqb (linkPrecedence c) primary.

(** [c.linkPrecedence === 'secondary'] *)
Definition isSecondary (c : Contact) : bool :=
  LinkPrecedence_eqb (linkPrecedence c) secondary.

(** Keys of the [contactGroups] map: a number, [null] (a secondary row
    whose [linkedId] is NULL) or [undefined] (the pushed array). *)
Inductive Key : Type :=
| KNum (z : Z)
| KNull
| KUndefined.

Definition Key_eqb (a b : Key) : bool :=
  match a, b with
  | KNum x, KNum y => x =? y
  | KNull, KNull => true
  | KUndefined, KUndefined => true
  | _, _ => false
  end.

Definition keyParam (k : Key) : SqlValue :=
  match k with
  | KNum z => VNum z
  | KNull | KUndefined => VNull
  end.

(** [primaryId !== oldestPrimary.id] *)
Definition keyDiffers (k : Key) (z : Z) : bool :=
  match k with
  | KNum x => negb (x =? z)
  | KNull | KUndefined => true
  end.

(** Lines 54-78. *)
Definition findExistingContacts (mail phone : option string) : M (list Contact) :=
  let '(conditions1, params1, paramIndex1) :=
    if truthy mail then ([EmailEq 1], [strParam mail], 2%nat)
    else ([], [], 1%nat) in
  let '(conditions2, params2) :=
    if truthy phone
    then (conditions1 ++ [PhoneNumberEq paramIndex1], params1 ++ [strParam phone])
    else (conditions1, params1) in
  query (SelectContacts conditions2) params2.

(** [Set.prototype.add], the set kept in insertion order. *)
Definition setAddNum (s : list Z) (k : Z) : list Z :=
  if existsb (Z.eqb k) s then s else s ++ [k].

(** Lines 84-92. *)
Definition primaryIdsOf (contacts : list Contact) : list Z :=
  fold_left
    (fun primaryIds contact =>
       if isPrimary contact then setAddNum primaryIds (id contact)
       else if truthyNum (linkedId contact) then
         match linkedId contact with
         | Some k => setAddNum primaryIds k
         | None => primaryIds
         end
       else primaryIds)
    contacts [].

(** Lines 80-107.  The placeholders [$1..$n] are written once and used
    in both IN lists, and the parameter array holds the ids twice. *)
Definition getAllLinkedContacts (contacts : list Contact) : M (list Contact) :=
  match contacts with
  | [] => ret []
  | _ =>
      let primaryIdArray := primaryIdsOf contacts in
      let placeholders := seq 1 (List.length primaryIdArray) in
      query (SelectContacts [IdIn placeholders; LinkedIdIn placeholders])
        (map VNum primaryIdArray ++ map VNum primaryIdArray)
  end.

(** Lines 109-115. *)
Definition needsNewSecondaryContact (existingContacts : list Contact)
    (mail phone : option string) : bool :=
  negb (existsb
          (fun contact =>
             strictEqStr (email contact) (orNull mail)
             && strictEqStr (phoneNumber contact) (orNull phone))
          existingContacts).

(** Lines 117-121; [[0]] of an empty array is [undefined]. *)
Definition findOldestPrimary (contacts : list Contact) : option Contact :=
  hd_error (sortByCreatedAt (filter isPrimary contacts)).

(** Lines 168-193.  [pool.connect] and [client.release] send nothing. *)
Definition convertPrimaryToSecondary (primaryId : Key) (newPrimaryId : Z) : M unit :=
  tryCatchRethrow
    (query Begin [] ;;;
     query UpdateDemote [VNum newPrimaryId; VStr "secondary"%string; keyParam primaryId] ;;;
     query UpdateRepoint [VNum newPrimaryId; keyParam primaryId] ;;;
     query Commit [] ;;;
     ret tt)
    (query Rollback [] ;;; ret tt).

(** Lines 195-205: one placeholder used twice, one parameter bound. *)
Definition getAllLinkedContactsById (primaryId : Z) : M (list Contact) :=
  query (SelectContacts [IdEq 1; LinkedIdEq 1]) [VNum primaryId].

(** Lines 207-216; the value is [result.rows[0]].  An INSERT ... RETURNING
    that succeeds returns its row; were the array empty, the [undefined]
    would make the first property read in [buildResponse] throw. *)
Definition createPrimaryContact (mail phone : option string) : M Contact :=
  result <- query (InsertContact None primary)
              [strParam (orNull phone); strParam (orNull mail)] ;;
  match result with
  | c :: _ => ret c
  | [] => throw TypeError
  end.

(** Lines 218-227; the value is [result.rows], the whole array. *)
Definition createSecondaryContact (mail phone : option string) (linked : Z) : M Item :=
  result <- query (InsertContact (Some 3%nat) secondary)
              [strParam (orNull phone); strParam (orNull mail); VNum linked] ;;
  ret (RowsArray result).

(** [Map.prototype.set] / [get(...).push] on the groups, in insertion order. *)
Fixpoint groupPush (k : Key) (it : Item) (groups : list (Key * list Item))
    : list (Key * list Item) :=
  match groups with
  | [] => [(k, [it])]
  | (k', g) :: rest =>
      if Key_eqb k k' then (k', g ++ [it]) :: rest
      else (k', g) :: groupPush k it rest
  end.

(** Line 128. *)
Definition primaryKey (it : Item) : Key :=
  match it with
  | Row c =>
      if isPrimary c then KNum (id c)
      else match linkedId c with
           | Some k => KNum k
           | None => KNull
           end
  | RowsArray _ => KUndefined
  end.

(** Lines 125-133. *)
Definition contactGroupsOf (contacts : list Item) : list (Key * list Item) :=
  fold_left (fun groups contact => groupPush (primaryKey contact) contact groups)
    contacts [].

(** [contacts.find(c => c.linkPrecedence === 'primary')] *)
Fixpoint findPrimary (contacts : list Item) : option Contact :=
  match contacts with
  | [] => None
  | Row c :: rest => if isPrimary c then Some c else findPrimary rest
  | RowsArray _ :: rest => findPrimary rest
  end.

Fixpoint definedOnly {A : Type} (l : list (option A)) : list A :=
  match l with
  | [] => []
  | Some a :: rest => a :: definedOnly rest
  | None :: rest => definedOnly rest
  end.

(** [Array.prototype.sort] with the comparator of line 142: [undefined]
    elements go to the end without being compared. *)
Definition sortUndefinedLast (l : list (option Contact)) : list (option Contact) :=
  map Some (sortByCreatedAt (definedOnly l))
  ++ repeat None (List.length l - List.length (definedOnly l)).

(** Lines 140-142. *)
Definition oldestGroupPrimary (primaryGroups : list (Key * list Item)) : option Contact :=
  match sortUndefinedLast (map (fun g => findPrimary (snd g)) primaryGroups) with
  | first :: _ => first
  | [] => None
  end.

(** Lines 150-157, the edit of the objects already in memory. *)
Definition patchInMemory (newPrimaryId : Z) (it : Item) : Item :=
  match it with
  | Row c =>
      if isPrimary c
      then Row (mkContact (id c) (phoneNumber c) (email c) (Some newPrimaryId) secondary
                  (createdAt c) (updatedAt c) (deletedAt c))
      else Row (mkContact (id c) (phoneNumber c) (email c) (Some newPrimaryId)
                  (linkPrecedence c) (createdAt c) (updatedAt c) (deletedAt c))
  | RowsArray l => RowsArray l
  end.

(** Lines 145-159, one turn of the loop. *)
Definition mergeGroup (oldestPrimaryId : Z) (group : Key * list Item)
    : M (Key * list Item) :=
  let '(primaryId, groupContacts) := group in
  if keyDiffers primaryId oldestPrimaryId then
    convertPrimaryToSecondary primaryId oldestPrimaryId ;;;
    ret (primaryId, map (patchInMemory oldestPrimaryId) groupContacts)
  else ret (primaryId, groupContacts).

(** Lines 123-166.  The request's email and phone are not read. *)
Definition handleContactChainMerging (contacts : list Item)
    (mail phone : option string) : M (list Item) :=
  let contactGroups := contactGroupsOf contacts in
  if (1 <? List.length contactGroups)%nat then
    match oldestGroupPrimary contactGroups with
    | None => throw TypeError
    | Some oldestPrimary =>
        forEachM (mergeGroup (id oldestPrimary)) contactGroups ;;;
        refreshed <- getAllLinkedContactsById (id oldestPrimary) ;;
        ret (map Row refreshed)
    end
  else ret contacts.

(** [.filter(Boolean)] on nullable strings. *)
Fixpoint filterBoolean (l : list (option string)) : list string :=
  match l with
  | [] => []
  | Some s :: rest => if String.eqb s EmptyString then filterBoolean rest else s :: filterBoolean rest
  | None :: rest => filterBoolean rest
  end.

Definition setAddStr (s : list string) (x : string) : list string :=
  if existsb (String.eqb x) s then s else s ++ [x].

(** [Array.from(new Set(values))]: first occurrences, in order. *)
Definition arrayFromSet (values : list string) : list string :=
  fold_left setAddStr values [].

Fixpoint secondariesOf (contacts : list Item) : list Contact :=
  match contacts with
  | [] => []
  | Row c :: rest => if isSecondary c then c :: secondariesOf rest else secondariesOf rest
  | RowsArray _ :: rest => secondariesOf rest
  end.

(** Lines 229-251; reading [primary.email] throws when no primary was found. *)
Definition buildResponse (contacts : list Item) : Res IdentifyResponse :=
  match findPrimary contacts with
  | None => Err TypeError
  | Some primaryContact =>
      let secondaries := secondariesOf contacts in
      Ok (mkResponse
            (id primaryContact)
            (arrayFromSet (filterBoolean (email primaryContact :: map email secondaries)))
            (arrayFromSet
               (filterBoolean (phoneNumber primaryContact :: map phoneNumber secondaries)))
            (map id secondaries))
  end.

(** Lines 20-52. *)
Definition identify (request : IdentifyRequest) : M IdentifyResponse :=
  let mail := reqEmail request in
  let phone := reqPhoneNumber request in
  if negb (truthy mail) && negb (truthy phone) then throw ValidationError
  else
    existingContacts <- findExistingContacts mail phone ;;
    match existingContacts with
    | [] =>
        newContact <- createPrimaryContact mail phone ;;
        liftRes (buildResponse [Row newContact])
    | _ =>
        allLinkedContacts <- getAllLinkedContacts existingContacts ;;
        contacts <-
          (if needsNewSecondaryContact allLinkedContacts mail phone then
             match findOldestPrimary allLinkedContacts with
             | None => throw TypeError
             | Some primaryContact =>
                 newSecondary <- createSecondaryContact mail phone (id primaryContact) ;;
                 ret (map Row allLinkedContacts ++ [newSecondary])
             end
           else ret (map Row allLinkedContacts)) ;;
        finalContacts <- handleContactChainMerging contacts mail phone ;;
        liftRes (buildResponse finalContacts)
    end.

(* ================================================================= *)
(** ** Specification-side vocabulary *)

(** A request field that was sent as the empty string, replaced by an
    omitted field. *)
Definition omitEmpty (s : option string) : option string :=
  match s with
  | Some EmptyString => None
  | _ => s
  end.

Definition omitEmptyFields (request : IdentifyRequest) : IdentifyRequest :=
  mkRequest (omitEmpty (reqEmail request)) (omitEmpty (reqPhoneNumber request)).

(** The Finder's predicate of section 4.1: the row carries the given
    email or the given phone number, an unsupplied field matching nothing. *)
Definition matchesRequest (mail phone : option string) (c : Contact) : bool :=
  (truthy mail && sqlEqStr (email c) mail)
  || (truthy phone && sqlEqStr (phoneNumber c) phone).

(** The rows the Finder is to return: the non-deleted matches, oldest first. *)
Definition matchesOf (table : list Contact) (mail phone : option string) : list Contact :=
  sortByCreatedAt (filter (fun c => matchesRequest mail phone c && notDeleted c) table).

(** The cluster(s) of section 4.2: every non-deleted row whose [id] or
    [linkedId] is one of the primary ids of the seed rows. *)
Definition clusterOf (table : list Contact) (seed : list Contact) : list Contact :=
  let ids := primaryIdsOf seed in
  sortByCreatedAt
    (filter (fun c => (existsb (Z.eqb (id c)) ids || sqlIn (linkedId c) ids) && notDeleted c)
       table).

Definition matchedCluster (table : list Contact) (mail phone : option string) : list Contact :=
  clusterOf table (matchesOf table mail phone).

(** The store after one more statement has been sent and answered. *)
Definition sent (w : World) : World :=
  mkWorld (rows w) (nextId w) (now w) (txn w) (faults w) (S (issued w)).

(** The bound value of a group key, as a nullable number. *)
Definition keyNum (k : Key) : option Z :=
  match k with
  | KNum z => Some z
  | KNull | KUndefined => None
  end.

(** One complete demotion on a table: the row whose id is [k] becomes a
    secondary of [newPrimaryId], then every row linked to [k] is linked to
    [newPrimaryId]; both statements stamp [updatedAt]. *)
Definition convertRows (k : Key) (newPrimaryId : Z) (t : Z) (table : list Contact)
    : list Contact :=
  updateRows (fun c => sqlEqNum (linkedId c) (keyNum k)) (repoint (Some newPrimaryId) t)
    (updateRows (fun c => sqlEqNum (Some (id c)) (keyNum k))
       (demote (Some newPrimaryId) secondary t) table).

(** The complete demotions of the groups [keys], in order, the group of
    the surviving primary being skipped. *)
Definition mergedRows (oldestPrimaryId : Z) (t : Z) (keys : list Key)
    (table : list Contact) : list Contact :=
  fold_left
    (fun tbl k => if keyDiffers k oldestPrimaryId then convertRows k oldestPrimaryId t tbl
                  else tbl)
    keys table.

(** The candidates of the merge's selection: the primary of each group,
    in the order the groups were first seen. *)
Definition groupPrimaries (primaryGroups : list (Key * list Item)) : list Contact :=
  definedOnly (map (fun g => findPrimary (snd g)) primaryGroups).

(** Ordered unique list: each value once, at the place of its first
    occurrence. *)
Fixpoint firstOccurrences (l : list string) : list string :=
  match l with
  | [] => []
  | x :: xs => x :: filter (fun y => negb (String.eqb y x)) (firstOccurrences xs)
  end.

(** The non-null values of a nullable column, as section 4.5 words it. *)
Definition nonNullValues (l : list (option string)) : list string := definedOnly l.

(** The values that are neither NULL nor the empty string. *)
Definition nonEmptyValues (l : list (option string)) : list string :=
  filter (fun s => negb (String.eqb s EmptyString)) (definedOnly l).

(** The emails of a response as section 4.5 words them: the primary's
    email, then the secondaries' in cluster order, nulls and duplicates
    removed. *)
Definition specEmails (primaryContact : Contact) (cluster : list Contact) : list string :=
  firstOccurrences
    (nonNullValues (email primaryContact :: map email (filter isSecondary cluster))).

(* ----------------------------------------------------------------- *)
(** *** Sample stores *)

Definition sampleA1 : Contact :=
  mkContact 1 (Some "111"%string) (Some "a@x.io"%string) None primary 10 10 None.

Definition sampleB1 : Contact :=
  mkContact 2 (Some "222"%string) (Some "b@x.io"%string) None primary 20 20 None.

Definition sampleB2 : Contact :=
  mkContact 3 (Some "333"%string) (Some "b@x.io"%string) (Some 2) secondary 30 30 None.

Definition sampleC1 : Contact :=
  mkContact 4 (Some "444"%string) (Some "c@x.io"%string) None primary 40 40 None.

(** Two unrelated clusters: A = {1}, B = {2, 3}. *)
Definition twoClusters : World :=
  mkWorld [sampleA1; sampleB1; sampleB2] 4 100 None None 0.

(** The request that bridges them: the email of contact 1, the phone of
    contact 2. *)
Definition bridgingRequest : IdentifyRequest :=
  mkRequest (Some "a@x.io"%string) (Some "222"%string).

(** A single primary, and a request with its email and an unseen phone. *)
Definition onePrimary : World :=
  mkWorld [sampleA1] 2 100 None None 0.

Definition knownEmailNewPhone : IdentifyRequest :=
  mkRequest (Some "a@x.io"%string) (Some "999"%string).

(** The table as a merge of A and B for [bridgingRequest] leaves it:
    contact 2 demoted, contact 3 re-pointed, contact 4 recording the pair. *)
Definition mergedTable : list Contact :=
  [sampleA1;
   mkContact 2 (Some "222"%string) (Some "b@x.io"%string) (Some 1) secondary 20 100 None;
   mkContact 3 (Some "333"%string) (Some "b@x.io"%string) (Some 1) secondary 30 100 None;
   mkContact 4 (Some "222"%string) (Some "a@x.io"%string) (Some 1) secondary 100 100 None].

(** The secondary that records the pair of [bridgingRequest], and
    [twoClusters] once it has been inserted. *)
Definition bridgingSecondary : Contact :=
  mkContact 4 (Some "222"%string) (Some "a@x.io"%string) (Some 1) secondary 100 100 None.

Definition twoClustersAndSecondary : World :=
  mkWorld [sampleA1; sampleB1; sampleB2; bridgingSecondary] 5 100 None None 0.

(** Three primaries and a store whose sixth statement fails. *)
Definition threePrimaries : list Contact := [sampleA1; sampleB1; sampleC1].

Definition failingSixth : World :=
  mkWorld threePrimaries 5 100 None (Some 5%nat) 0.

(** One cluster in which the email and the phone of [bridgingRequest]
    occur on different members. *)
Definition splitPairSecondary : Contact :=
  mkContact 2 (Some "222"%string) (Some "c@x.io"%string) (Some 1) secondary 20 20 None.

Definition splitPair : World :=
  mkWorld [sampleA1; splitPairSecondary] 3 100 None None 0.



(** Two primaries created at the same instant, the larger id stored first. *)
Definition tiedLow : Contact :=
  mkContact 1 (Some "111"%string) (Some "a@x.io"%string) None primary 50 50 None.

Definition tiedHigh : Contact :=
  mkContact 2 (Some "222"%string) (Some "b@x.io"%string) None primary 50 50 None.

(** A cluster whose primary has the empty string as email. *)
Definition blankPrimary : Contact :=
  mkContact 1 (Some "111"%string) (Some EmptyString) None primary 10 10 None.

Definition plainSecondary : Contact :=
  mkContact 2 (Some "222"%string) (Some "b@x.io"%string) (Some 1) secondary 20 20 None.

(* ----------------------------------------------------------------- *)
(** *** Vocabulary for the remaining functions *)

(** [a] was not created after [b]. *)
Definition notYounger (a b : Contact) : Prop := createdAt a <= createdAt b.

(** What one complete demotion does to one row. *)
Definition convertRow (k : Key) (newPrimaryId : Z) (t : Z) (c : Contact) : Contact :=
  let c1 := if sqlEqNum (Some (id c)) (keyNum k)
            then demote (Some newPrimaryId) secondary t c else c in
  if sqlEqNum (linkedId c1) (keyNum k) then repoint (Some newPrimaryId) t c1 else c1.

(** What the demotions of the groups [keys] do to one row. *)
Definition mergeRow (oldestPrimaryId : Z) (t : Z) (keys : list Key) (c : Contact) : Contact :=
  fold_left
    (fun row k => if keyDiffers k oldestPrimaryId then convertRow k oldestPrimaryId t row
                  else row)
    keys c.

(** The columns of a row that no statement of the service updates. *)
Definition storedIdentity (c : Contact)
    : Z * option string * option string * Z * option Z :=
  (id c, email c, phoneNumber c, createdAt c, deletedAt c).

(** The keys of the groups a merge under [oldestPrimaryId] demotes, in
    the order of the loop. *)
Definition demotedKeys (oldestPrimaryId : Z) (groups : list (Key * list Item)) : list Key :=
  filter (fun k => keyDiffers k oldestPrimaryId) (map fst groups).

(** Ids are unique and were all drawn from the sequence. *)
Definition idsFresh (w : World) : Prop :=
  NoDup (map id (rows w)) /\ forall c, In c (rows w) -> id c < nextId w.

(** A primary row has no link. *)
Definition primaryUnlinked (c : Contact) : Prop :=
  isPrimary c = true -> linkedId c = None.

(** The group stored under a key of the [contactGroups] map. *)
Definition groupMembers (k : Key) (contacts : list Item) : list Item :=
  filter (fun it => Key_eqb (primaryKey it) k) contacts.

(* ----------------------------------------------------------------- *)
(** *** The HTTP handler of [server.ts] *)

(** The JSON bodies the handler sends. *)
Inductive HttpBody : Type :=
| ErrorBody (error : string)              (* { error: ... } *)
| ContactBody (contact : IdentifyResponse).  (* { contact: { ... } } *)

Record HttpResponse : Type := mkHttp {
  status : Z;
  body : HttpBody
}.

(** [app.post('/identify', ...)], lines 12-29 of [server.ts], on a parsed
    body of type [IdentifyRequest].  [res.json] alone answers with 200;
    the [console.error] of the catch block is not modelled. *)
Definition postIdentify (request : IdentifyRequest) (w : World) : World * HttpResponse :=
  if negb (truthy (reqEmail request)) && negb (truthy (reqPhoneNumber request))
  then (w, mkHttp 400 (ErrorBody "Either email or phoneNumber must be provided"%string))
  else
    match identify request w with
    | (w', Ok response) => (w', mkHttp 200 (ContactBody response))
    | (w', Err _) => (w', mkHttp 500 (ErrorBody "Internal server error"%string))
    end.

(* ================================================================= *)
(** ** Basic facts about the store *)

Lemma statement_healthy (w : World) :
  faults w = None -> statement w = (sent w, Ok tt).
Proof.
  intros H. unfold statement, sent. rewrite H. reflexivity.
Qed.

Lemma statement_keeps_rows (w : World) :
  rows (fst (statement w)) = rows w
  /\ nextId (fst (statement w)) = nextId w
  /\ txn (fst (statement w)) = txn w
  /\ now (fst (statement w)) = now w.
Proof.
  unfold statement. destruct (faults w) as [[|n]|]; simpl; auto.
Qed.

Lemma query_healthy (q : Sql) (params : list SqlValue) (w : World) :
  faults w = None ->
  parses q = true ->
  List.length params = requiredParams q ->
  query q params w = execute q params (sent w).
Proof.
  intros Hf Hp Hl. unfold query, bind.
  rewrite (statement_healthy w Hf), Hp. simpl.
  rewrite Hl, Nat.eqb_refl. reflexivity.
Qed.

Lemma query_surplus_parameters (q : Sql) (params : list SqlValue) (w : World) :
  faults w = None ->
  parses q = true ->
  List.length params <> requiredParams q ->
  query q params w = (sent w, Err BindError).
Proof.
  intros Hf Hp Hl. unfold query, bind.
  rewrite (statement_healthy w Hf), Hp. simpl.
  apply Nat.eqb_neq in Hl. rewrite Hl. reflexivity.
Qed.

Lemma strictEqStr_eq (a b : option string) : strictEqStr a b = true <-> a = b.
Proof.
  destruct a as [x|], b as [y|]; simpl; split; intros H;
    try discriminate; try reflexivity.
  - apply String.eqb_eq in H. now subst.
  - inversion H. apply String.eqb_refl.
Qed.

Lemma sqlEqStr_eq (a b : option string) :
  sqlEqStr a b = true <-> exists v, a = Some v /\ b = Some v.
Proof.
  destruct a as [x|], b as [y|]; simpl; split; intros H;
    try discriminate; try (destruct H as (v & H1 & H2); discriminate).
  - apply String.eqb_eq in H. subst. now exists y.
  - destruct H as [v [H1 H2]]. inversion H1; inversion H2; subst.
    apply String.eqb_refl.
Qed.

(* ----------------------------------------------------------------- *)
(** *** Sorting *)

Lemma insertByCreatedAt_In (x y : Contact) (l : list Contact) :
  In y (insertByCreatedAt x l) <-> y = x \/ In y l.
Proof.
  induction l as [|z l IH]; simpl.
  - intuition.
  - destruct (createdAt x <=? createdAt z); simpl.
    + intuition.
    + rewrite IH. intuition.
Qed.

Lemma sortByCreatedAt_In (y : Contact) (l : list Contact) :
  In y (sortByCreatedAt l) <-> In y l.
Proof.
  induction l as [|x l IH]; simpl.
  - reflexivity.
  - rewrite insertByCreatedAt_In, IH. intuition.
Qed.

Lemma sortByCreatedAt_nil (l : list Contact) :
  sortByCreatedAt l = [] <-> l = [].
Proof.
  split.
  - destruct l as [|x l]; [reflexivity|]. intros H.
    assert (Hin : In x (sortByCreatedAt (x :: l))) by (apply sortByCreatedAt_In; now left).
    rewrite H in Hin. contradiction.
  - intros ->. reflexivity.
Qed.

Lemma filter_nil_iff {A : Type} (f : A -> bool) (l : list A) :
  filter f l = [] <-> forall x, In x l -> f x = false.
Proof.
  induction l as [|a l IH]; simpl.
  - split; [intros _ x []|reflexivity].
  - destruct (f a) eqn:E.
    + split; [discriminate|]. intros H. specialize (H a (or_introl eq_refl)). congruence.
    + rewrite IH. split.
      * intros H x [->|Hx]; auto.
      * intros H x Hx. apply H. now right.
Qed.

(* ----------------------------------------------------------------- *)
(** *** The two SELECTs of a request *)

Lemma asStr_strParam (s : option string) : asStr (strParam s) = s.
Proof. destruct s; reflexivity. Qed.

Lemma findExistingContacts_healthy (mail phone : option string) (w : World) :
  faults w = None ->
  truthy mail || truthy phone = true ->
  findExistingContacts mail phone w = (sent w, Ok (matchesOf (rows w) mail phone)).
Proof.
  intros Hf Hv. unfold findExistingContacts, matchesOf.
  destruct (truthy mail) eqn:Em, (truthy phone) eqn:Ep; try discriminate;
    (rewrite query_healthy; [|assumption|reflexivity|reflexivity]);
    simpl; unfold selectRows;
    match goal with
    | |- (_, Ok (sortByCreatedAt ?a)) = (_, Ok (sortByCreatedAt ?b)) =>
        replace a with b; [reflexivity|]
    end;
    apply filter_ext; intros c;
    unfold matchesRequest; rewrite Em, Ep; simpl; unfold param; simpl;
    rewrite ?asStr_strParam, ?orb_false_r; reflexivity.
Qed.

Lemma fold_max_app (l1 l2 : list nat) :
  fold_right Nat.max O (l1 ++ l2)
  = Nat.max (fold_right Nat.max O l1) (fold_right Nat.max O l2).
Proof.
  induction l1 as [|a l1 IH]; simpl.
  - reflexivity.
  - rewrite IH. apply Nat.max_assoc.
Qed.

Lemma fold_max_seq (n : nat) : fold_right Nat.max O (seq 1 n) = n.
Proof.
  induction n as [|n IH].
  - reflexivity.
  - rewrite seq_S, fold_max_app, IH. simpl. lia.
Qed.

(** The cluster read of lines 98-105 needs as many parameters as there
    are primary ids and is sent twice as many. *)
Lemma cluster_query_arity (ids : list Z) :
  requiredParams
    (SelectContacts [IdIn (seq 1 (List.length ids)); LinkedIdIn (seq 1 (List.length ids))])
  = List.length ids
  /\ List.length (map VNum ids ++ map VNum ids) = (2 * List.length ids)%nat.
Proof.
  simpl. split.
  - rewrite app_nil_r, fold_max_app, fold_max_seq. lia.
  - rewrite length_app, length_map. lia.
Qed.

Lemma getAllLinkedContacts_rejected (contacts : list Contact) (w : World) :
  faults w = None ->
  contacts <> [] ->
  getAllLinkedContacts contacts w
  = (sent w, Err (match primaryIdsOf contacts with
                  | [] => SqlSyntaxError
                  | _ => BindError
                  end)).
Proof.
  intros Hf Hne. unfold getAllLinkedContacts.
  destruct contacts as [|c cs]; [congruence|].
  destruct (primaryIdsOf (c :: cs)) as [|k ids'] eqn:E.
  - unfold query, bind. rewrite (statement_healthy w Hf). reflexivity.
  - apply query_surplus_parameters; [assumption|reflexivity|].
    destruct (cluster_query_arity (k :: ids')) as [Hreq Hlen].
    intros Hc. rewrite Hlen, Hreq in Hc. simpl in Hc. lia.
Qed.

(** Whenever the Finder returns a row, the request ends in the cluster
    read: two statements sent, nothing written, an error returned. *)
Lemma identify_with_match_rejected (request : IdentifyRequest) (w : World) :
  faults w = None ->
  matchesOf (rows w) (reqEmail request) (reqPhoneNumber request) <> [] ->
  identify request w
  = (sent (sent w),
     Err (match primaryIdsOf (matchesOf (rows w) (reqEmail request) (reqPhoneNumber request)) with
          | [] => SqlSyntaxError
          | _ => BindError
          end)).
Proof.
  intros Hf Hm. unfold identify.
  destruct (truthy (reqEmail request) || truthy (reqPhoneNumber request)) eqn:Ev.
  - apply orb_true_iff in Ev.
    assert (Hn : negb (truthy (reqEmail request)) && negb (truthy (reqPhoneNumber request)) = false).
    { destruct Ev as [-> | ->]; simpl; auto using andb_false_r. }
    rewrite Hn. unfold bind at 1.
    rewrite findExistingContacts_healthy by (auto; apply orb_true_iff; auto).
    destruct (matchesOf (rows w) (reqEmail request) (reqPhoneNumber request)) as [|c cs] eqn:E;
      [congruence|].
    unfold bind at 1.
    rewrite getAllLinkedContacts_rejected by (auto; discriminate).
    reflexivity.
  - exfalso. apply Hm. unfold matchesOf. apply sortByCreatedAt_nil.
    apply filter_nil_iff. intros c _. unfold matchesRequest.
    apply orb_false_iff in Ev. destruct Ev as [-> ->]. reflexivity.
Qed.

Lemma matchesRequest_false (mail phone : option string) (c : Contact) :
  ~ (truthy mail = true /\ email c = mail) ->
  ~ (truthy phone = true /\ phoneNumber c = phone) ->
  matchesRequest mail phone c = false.
Proof.
  intros Hm Hp. unfold matchesRequest. apply orb_false_iff. split.
  - destruct (truthy mail) eqn:E; [|reflexivity]. simpl.
    destruct (sqlEqStr (email c) mail) eqn:Es; [|reflexivity].
    apply sqlEqStr_eq in Es. destruct Es as (v & H1 & H2).
    exfalso. apply Hm. split; congruence.
  - destruct (truthy phone) eqn:E; [|reflexivity]. simpl.
    destruct (sqlEqStr (phoneNumber c) phone) eqn:Es; [|reflexivity].
    apply sqlEqStr_eq in Es. destruct Es as (v & H1 & H2).
    exfalso. apply Hp. split; congruence.
Qed.

Lemma notDeleted_true (c : Contact) : notDeleted c = true <-> deletedAt c = None.
Proof.
  unfold notDeleted. destruct (deletedAt c); simpl; split; congruence.
Qed.

Lemma createPrimaryContact_healthy (mail phone : option string) (w : World) :
  faults w = None ->
  createPrimaryContact mail phone w
  = (let c := mkContact (nextId w) (orNull phone) (orNull mail) None primary
                (now w) (now w) None in
     (mkWorld (rows w ++ [c]) (nextId w + 1) (now w) (txn w) None (S (issued w)), Ok c)).
Proof.
  intros Hf. unfold createPrimaryContact, bind.
  rewrite query_healthy by (auto; reflexivity).
  simpl. unfold newRow, param. simpl. rewrite !asStr_strParam, Hf. reflexivity.
Qed.

(* ================================================================= *)
(** ** Request validation *)

(** C7: a request that supplies neither an email nor a phone number is
    rejected with the validation error before any statement is sent: the
    store comes back exactly as it was, its count of statements sent
    included, and a store that is about to fail is not even reached. *)
Theorem identify_rejects_request_without_identifier (w : World) :
  identify (mkRequest None None) w = (w, Err ValidationError).
Proof. reflexivity. Qed.

(** C10: an empty-string identifier counts as absent.  A request whose
    two fields are both the empty string gets the validation error, with
    no statement sent; every request behaves exactly as the request with
    its empty-string fields omitted; the Finder leaves an empty-string
    field out of its query; and a contact created from an empty-string
    field stores NULL in that column. *)
Theorem empty_string_identifier_is_absent :
  (forall w,
      identify (mkRequest (Some EmptyString) (Some EmptyString)) w
      = (w, Err ValidationError))
  /\ (forall request w, identify request w = identify (omitEmptyFields request) w)
  /\ (forall phone w,
         findExistingContacts (Some EmptyString) phone w
         = findExistingContacts None phone w)
  /\ (forall mail w,
         findExistingContacts mail (Some EmptyString) w
         = findExistingContacts mail None w)
  /\ (forall other linked w,
         match createPrimaryContact (Some EmptyString) other w with
         | (_, Ok c) => email c = None
         | (_, Err _) => True
         end
         /\ match createPrimaryContact other (Some EmptyString) w with
            | (_, Ok c) => phoneNumber c = None
            | (_, Err _) => True
            end
         /\ match createSecondaryContact (Some EmptyString) other linked w with
            | (_, Ok (RowsArray l)) => Forall (fun c => email c = None) l
            | (_, Ok (Row c)) => email c = None
            | (_, Err _) => True
            end
         /\ match createSecondaryContact other (Some EmptyString) linked w with
            | (_, Ok (RowsArray l)) => Forall (fun c => phoneNumber c = None) l
            | (_, Ok (Row c)) => phoneNumber c = None
            | (_, Err _) => True
            end).
Proof.
  split; [reflexivity|].
  split.
  { intros [[[|a s]|] [[|b t]|]] w; reflexivity. }
  split; [reflexivity|].
  split.
  { intros [[|a s]|] w; reflexivity. }
  intros other linked w.
  unfold createPrimaryContact, createSecondaryContact, query, bind, statement.
  repeat split; destruct (faults w) as [[|n]|]; simpl; auto.
Qed.

(* ================================================================= *)
(** ** First sight of an identity *)

(** C4: when the store is healthy and the request carries at least one
    identifier, and no non-deleted contact has the request's email or its
    phone number, identify appends exactly one contact to the table (the
    other rows are untouched); that contact is a primary with a NULL
    linkedId, holding the request's identifiers; and the response names
    it as primary and lists no secondary. *)
Theorem identify_creates_primary_when_nothing_matches
    (request : IdentifyRequest) (w : World) :
  faults w = None ->
  truthy (reqEmail request) || truthy (reqPhoneNumber request) = true ->
  (forall c, In c (rows w) -> deletedAt c = None ->
             ~ (truthy (reqEmail request) = true /\ email c = reqEmail request)
             /\ ~ (truthy (reqPhoneNumber request) = true
                   /\ phoneNumber c = reqPhoneNumber request)) ->
  exists created,
    identify request w
    = (mkWorld (rows w ++ [created]) (nextId w + 1) (now w) (txn w) None (2 + issued w),
       Ok (mkResponse (id created)
             (filterBoolean [reqEmail request])
             (filterBoolean [reqPhoneNumber request])
             []))
    /\ id created = nextId w
    /\ linkPrecedence created = primary
    /\ linkedId created = None
    /\ email created = orNull (reqEmail request)
    /\ phoneNumber created = orNull (reqPhoneNumber request)
    /\ deletedAt created = None.
Proof.
  intros Hf Hv Hnone.
  exists (mkContact (nextId w) (orNull (reqPhoneNumber request)) (orNull (reqEmail request))
            None primary (now w) (now w) None).
  split; [|repeat split].
  unfold identify.
  assert (Hn : negb (truthy (reqEmail request)) && negb (truthy (reqPhoneNumber request)) = false).
  { apply orb_true_iff in Hv. destruct Hv as [-> | ->]; simpl; auto using andb_false_r. }
  rewrite Hn. unfold bind at 1.
  rewrite findExistingContacts_healthy by assumption.
  assert (Hm : matchesOf (rows w) (reqEmail request) (reqPhoneNumber request) = []).
  { unfold matchesOf. apply sortByCreatedAt_nil, filter_nil_iff. intros c Hc.
    destruct (notDeleted c) eqn:Ed; [|apply andb_false_r].
    apply notDeleted_true in Ed. destruct (Hnone c Hc Ed) as [H1 H2].
    rewrite (matchesRequest_false _ _ c H1 H2). reflexivity. }
  rewrite Hm. unfold bind.
  rewrite createPrimaryContact_healthy by assumption.
  simpl. unfold liftRes.
  destruct request as [[[|a s]|] [[|b t]|]]; reflexivity.
Qed.

(* ================================================================= *)
(** ** Requests that match stored contacts *)

Lemma findExistingContacts_run (mail phone : option string) (w : World) :
  truthy mail || truthy phone = true ->
  findExistingContacts mail phone w
  = match statement w with
    | (w1, Ok _) => (w1, Ok (matchesOf (rows w) mail phone))
    | (w1, Err e) => (w1, Err e)
    end.
Proof.
  intros Hv. unfold findExistingContacts, matchesOf.
  destruct (statement_keeps_rows w) as (Hr & _).
  destruct (truthy mail) eqn:Em, (truthy phone) eqn:Ep; try discriminate;
    unfold query, bind;
    destruct (statement w) as [w1 [[]|e]]; simpl in *; try reflexivity;
    unfold selectRows; rewrite Hr;
    match goal with
    | |- (_, Ok (sortByCreatedAt ?a)) = (_, Ok (sortByCreatedAt ?b)) =>
        replace a with b; [reflexivity|]
    end;
    apply filter_ext; intros c;
    unfold matchesRequest; rewrite Em, Ep; simpl; unfold param; simpl;
    rewrite ?asStr_strParam, ?orb_false_r; reflexivity.
Qed.

Lemma getAllLinkedContacts_run (contacts : list Contact) (w : World) :
  contacts <> [] ->
  getAllLinkedContacts contacts w
  = match statement w with
    | (w1, Ok _) =>
        (w1, Err (match primaryIdsOf contacts with
                  | [] => SqlSyntaxError
                  | _ => BindError
                  end))
    | (w1, Err e) => (w1, Err e)
    end.
Proof.
  intros Hne. unfold getAllLinkedContacts.
  destruct contacts as [|c cs]; [congruence|].
  unfold query, bind. destruct (statement w) as [w1 [[]|e]]; [|reflexivity].
  destruct (primaryIdsOf (c :: cs)) as [|k ids'] eqn:E; [reflexivity|].
  destruct (cluster_query_arity (k :: ids')) as [Hreq Hlen].
  replace (parses (SelectContacts
                     [IdIn (seq 1 (List.length (k :: ids')));
                      LinkedIdIn (seq 1 (List.length (k :: ids')))])) with true
    by reflexivity.
  rewrite Hreq, Hlen.
  replace (2 * List.length (k :: ids') =? List.length (k :: ids'))%nat with false.
  - reflexivity.
  - symmetry. apply Nat.eqb_neq. simpl. lia.
Qed.

Lemma matchesOf_needs_identifier (table : list Contact) (mail phone : option string) :
  matchesOf table mail phone <> [] -> truthy mail || truthy phone = true.
Proof.
  intros Hm. destruct (truthy mail || truthy phone) eqn:Ev; [reflexivity|].
  exfalso. apply Hm. unfold matchesOf. apply sortByCreatedAt_nil.
  apply filter_nil_iff. intros c _. unfold matchesRequest.
  apply orb_false_iff in Ev. destruct Ev as [-> ->]. reflexivity.
Qed.

(** With any store, healthy or failing: once the Finder has rows to
    return, identify sends its two reads and stops on an error. *)
Lemma identify_with_match_run (request : IdentifyRequest) (w : World) :
  matchesOf (rows w) (reqEmail request) (reqPhoneNumber request) <> [] ->
  identify request w
  = match statement w with
    | (w1, Ok _) =>
        match statement w1 with
        | (w2, Ok _) =>
            (w2, Err (match primaryIdsOf
                              (matchesOf (rows w) (reqEmail request) (reqPhoneNumber request))
                      with
                      | [] => SqlSyntaxError
                      | _ => BindError
                      end))
        | (w2, Err e) => (w2, Err e)
        end
    | (w1, Err e) => (w1, Err e)
    end.
Proof.
  intros Hm. pose proof (matchesOf_needs_identifier _ _ _ Hm) as Hv.
  unfold identify.
  assert (Hn : negb (truthy (reqEmail request)) && negb (truthy (reqPhoneNumber request)) = false).
  { apply orb_true_iff in Hv. destruct Hv as [-> | ->]; simpl; auto using andb_false_r. }
  rewrite Hn. unfold bind at 1.
  rewrite findExistingContacts_run by assumption.
  destruct (statement w) as [w1 [[]|e]]; [|reflexivity].
  destruct (matchesOf (rows w) (reqEmail request) (reqPhoneNumber request)) as [|c cs] eqn:E;
    [congruence|].
  unfold bind at 1.
  rewrite getAllLinkedContacts_run by discriminate.
  destruct (statement w1) as [w2 [[]|e]]; reflexivity.
Qed.

Lemma identify_with_match_writes_nothing (request : IdentifyRequest) (w : World) :
  matchesOf (rows w) (reqEmail request) (reqPhoneNumber request) <> [] ->
  rows (fst (identify request w)) = rows w
  /\ nextId (fst (identify request w)) = nextId w
  /\ exists e, snd (identify request w) = Err e.
Proof.
  intros Hm. rewrite (identify_with_match_run _ _ Hm).
  destruct (statement_keeps_rows w) as (Hr & Hn & _).
  destruct (statement w) as [w1 [[]|e]]; simpl in *.
  - destruct (statement_keeps_rows w1) as (Hr1 & Hn1 & _).
    destruct (statement w1) as [w2 [[]|e]]; simpl in *;
      (repeat split; [congruence|congruence|eexists; reflexivity]).
  - repeat split; auto. eexists; reflexivity.
Qed.

Lemma clusterOf_nil (table : list Contact) : clusterOf table [] = [].
Proof.
  unfold clusterOf. apply sortByCreatedAt_nil, filter_nil_iff.
  intros c _. simpl. destruct (linkedId c); reflexivity.
Qed.

Lemma needsNewSecondaryContact_false (cluster : list Contact) (mail phone : option string) :
  needsNewSecondaryContact cluster mail phone = false
  <-> exists c, In c cluster /\ email c = orNull mail /\ phoneNumber c = orNull phone.
Proof.
  unfold needsNewSecondaryContact. rewrite negb_false_iff, existsb_exists.
  split; intros (c & Hc & H); exists c; (split; [assumption|]).
  - apply andb_true_iff in H. destruct H as [H1 H2].
    now rewrite strictEqStr_eq in H1, H2.
  - apply andb_true_iff. now rewrite !strictEqStr_eq.
Qed.

Lemma needsNewSecondaryContact_true (cluster : list Contact) (mail phone : option string) :
  needsNewSecondaryContact cluster mail phone = true
  <-> forall c, In c cluster ->
                ~ (email c = orNull mail /\ phoneNumber c = orNull phone).
Proof.
  pose proof (needsNewSecondaryContact_false cluster mail phone) as H.
  destruct (needsNewSecondaryContact cluster mail phone); split.
  - intros _ c Hc Hp.
    assert (true = false); [|discriminate].
    apply H. exists c. tauto.
  - reflexivity.
  - discriminate.
  - intros Hall. destruct H as [H _]. destruct (H eq_refl) as (c & Hc & Hp).
    exfalso. apply (Hall c Hc Hp).
Qed.

(* ================================================================= *)
(** ** Choosing the oldest primary *)

Lemma insertByCreatedAt_head (x : Contact) (l : list Contact) :
  hd_error (insertByCreatedAt x l)
  = match hd_error l with
    | None => Some x
    | Some m => if createdAt x <=? createdAt m then Some x else Some m
    end.
Proof.
  destruct l as [|y ys]; simpl.
  - reflexivity.
  - destruct (createdAt x <=? createdAt y); reflexivity.
Qed.

(** The head of the sorted list is the first of the earliest elements:
    everything in front of it in the input is strictly younger, nothing
    behind it is older. *)
Lemma sortByCreatedAt_head_first_earliest (l : list Contact) (p : Contact) :
  hd_error (sortByCreatedAt l) = Some p ->
  exists before after,
    l = before ++ p :: after
    /\ (forall c, In c before -> createdAt p < createdAt c)
    /\ (forall c, In c after -> createdAt p <= createdAt c).
Proof.
  revert p. induction l as [|x xs IH]; intros p Hp; simpl in Hp.
  - discriminate.
  - rewrite insertByCreatedAt_head in Hp.
    destruct (hd_error (sortByCreatedAt xs)) as [m|] eqn:Eh.
    + destruct (IH m eq_refl) as (before & after & Hxs & Hb & Ha).
      destruct (createdAt x <=? createdAt m) eqn:Ec; inversion Hp; subst p.
      * apply Z.leb_le in Ec. exists [], xs. split; [reflexivity|].
        split; [intros c []|].
        intros c Hc. rewrite Hxs in Hc. apply in_app_or in Hc.
        destruct Hc as [Hc|[Hc|Hc]].
        -- specialize (Hb c Hc). lia.
        -- subst c. lia.
        -- specialize (Ha c Hc). lia.
      * apply Z.leb_gt in Ec. exists (x :: before), after.
        split; [rewrite Hxs; reflexivity|]. split; [|assumption].
        intros c [Hc|Hc]; [subst c; lia|auto].
    + assert (Hnil : xs = []).
      { apply sortByCreatedAt_nil. destruct (sortByCreatedAt xs); [reflexivity|discriminate]. }
      inversion Hp; subst. exists [], []. split; [reflexivity|].
      split; intros c [].
Qed.

Lemma oldestGroupPrimary_head (primaryGroups : list (Key * list Item)) :
  oldestGroupPrimary primaryGroups
  = hd_error (sortByCreatedAt (groupPrimaries primaryGroups)).
Proof.
  unfold oldestGroupPrimary, sortUndefinedLast, groupPrimaries.
  set (l := map (fun g => findPrimary (snd g)) primaryGroups).
  destruct (sortByCreatedAt (definedOnly l)) as [|m ms]; simpl.
  - destruct (List.length l - List.length (definedOnly l))%nat; reflexivity.
  - reflexivity.
Qed.

(** C6, as amended: neither selection compares ids.  Each returns the
    first of its candidates with the earliest createdAt, in the order of
    the list it is given: the primaries of the cluster in the order the
    store returned the rows for [findOldestPrimary], the primaries of the
    groups in the order the groups were first seen for the merge.  Every
    candidate in front of the chosen one is strictly younger and none
    behind it is older, so among candidates with identical createdAt the
    first in that order is chosen, whatever its id. *)
Theorem oldest_primary_is_first_of_earliest
    (contacts : list Contact) (primaryGroups : list (Key * list Item)) :
  (forall p, findOldestPrimary contacts = Some p ->
     exists before after,
       filter isPrimary contacts = before ++ p :: after
       /\ (forall c, In c before -> createdAt p < createdAt c)
       /\ (forall c, In c after -> createdAt p <= createdAt c))
  /\ (forall p, oldestGroupPrimary primaryGroups = Some p ->
        exists before after,
          groupPrimaries primaryGroups = before ++ p :: after
          /\ (forall c, In c before -> createdAt p < createdAt c)
          /\ (forall c, In c after -> createdAt p <= createdAt c))
  /\ ((forall a b, In a (filter isPrimary contacts) -> In b (filter isPrimary contacts) ->
                   createdAt a = createdAt b) ->
      findOldestPrimary contacts = hd_error (filter isPrimary contacts))
  /\ ((forall a b, In a (groupPrimaries primaryGroups) ->
                   In b (groupPrimaries primaryGroups) ->
                   createdAt a = createdAt b) ->
      oldestGroupPrimary primaryGroups = hd_error (groupPrimaries primaryGroups)).
Proof.
  assert (Htie : forall l : list Contact,
             (forall a b, In a l -> In b l -> createdAt a = createdAt b) ->
             hd_error (sortByCreatedAt l) = hd_error l).
  { intros l Hall. destruct (hd_error (sortByCreatedAt l)) as [p|] eqn:Eh.
    - destruct (sortByCreatedAt_head_first_earliest l p Eh)
        as (before & after & Hl & Hb & _).
      destruct before as [|c before].
      + rewrite Hl. reflexivity.
      + exfalso. specialize (Hb c (or_introl eq_refl)).
        assert (createdAt p = createdAt c); [|lia].
        apply Hall; rewrite Hl; [apply in_or_app; right; now left|now left].
    - assert (l = []) as ->; [|reflexivity].
      apply sortByCreatedAt_nil. destruct (sortByCreatedAt l); [reflexivity|discriminate]. }
  split; [|split; [|split]].
  - intros p Hp. apply sortByCreatedAt_head_first_earliest. exact Hp.
  - intros p Hp. rewrite oldestGroupPrimary_head in Hp.
    apply sortByCreatedAt_head_first_earliest. exact Hp.
  - intros Hall. apply Htie, Hall.
  - intros Hall. rewrite oldestGroupPrimary_head. apply Htie, Hall.
Qed.

(** Witness for C6 as amended: the tied pair of the sample, stored with
    the larger id first. *)
Lemma oldest_primary_is_first_of_earliest_witness :
  findOldestPrimary [tiedHigh; tiedLow] = hd_error (filter isPrimary [tiedHigh; tiedLow])
  /\ oldestGroupPrimary (contactGroupsOf [Row tiedHigh; Row tiedLow])
     = hd_error (groupPrimaries (contactGroupsOf [Row tiedHigh; Row tiedLow]))
  /\ exists before after,
       filter isPrimary [sampleB1; sampleA1] = before ++ sampleA1 :: after
       /\ (forall c, In c before -> createdAt sampleA1 < createdAt c)
       /\ (forall c, In c after -> createdAt sampleA1 <= createdAt c).
Proof.
  destruct (oldest_primary_is_first_of_earliest [tiedHigh; tiedLow]
              (contactGroupsOf [Row tiedHigh; Row tiedLow])) as (_ & _ & H3 & H4).
  destruct (oldest_primary_is_first_of_earliest [sampleB1; sampleA1] []) as (H1 & _).
  split; [|split].
  - apply H3. simpl. intros a b [<-|[<-|[]]] [<-|[<-|[]]]; reflexivity.
  - apply H4. simpl. intros a b [<-|[<-|[]]] [<-|[<-|[]]]; reflexivity.
  - apply H1. reflexivity.
Defined.

(** C6 as stated fails: of two primaries created at the same instant,
    both selections return contact 2 when it is listed first, although
    contact 1 has the smaller id. *)
Lemma tie_is_not_broken_by_id :
  createdAt tiedLow = createdAt tiedHigh
  /\ id tiedLow < id tiedHigh
  /\ findOldestPrimary [tiedHigh; tiedLow] = Some tiedHigh
  /\ oldestGroupPrimary (contactGroupsOf [Row tiedHigh; Row tiedLow]) = Some tiedHigh
  /\ ~ (forall contacts p,
          findOldestPrimary contacts = Some p ->
          forall c, In c contacts -> isPrimary c = true ->
                    createdAt c = createdAt p -> id p <= id c).
Proof.
  repeat split; try reflexivity.
  intros H.
  specialize (H [tiedHigh; tiedLow] tiedHigh eq_refl tiedLow
                (or_intror (or_introl eq_refl)) eq_refl eq_refl).
  simpl in H. lia.
Qed.

(* ================================================================= *)
(** ** The response *)

Lemma filterBoolean_nonEmptyValues (l : list (option string)) :
  filterBoolean l = nonEmptyValues l.
Proof.
  unfold nonEmptyValues. induction l as [|[s|] l IH]; simpl.
  - reflexivity.
  - destruct (String.eqb s EmptyString); simpl; now rewrite IH.
  - exact IH.
Qed.

Lemma filter_filter_comm {A : Type} (f g : A -> bool) (l : list A) :
  filter f (filter g l) = filter g (filter f l).
Proof.
  induction l as [|a l IH]; simpl.
  - reflexivity.
  - destruct (g a) eqn:Eg, (f a) eqn:Ef; simpl; rewrite ?Eg, ?Ef, IH; reflexivity.
Qed.

Lemma filter_drop_rejected {A : Type} (f g : A -> bool) (l : list A) :
  (forall a, f a = true -> g a = true) ->
  filter f (filter g l) = filter f l.
Proof.
  intros H. induction l as [|a l IH]; simpl.
  - reflexivity.
  - destruct (g a) eqn:Eg; simpl.
    + destruct (f a); now rewrite IH.
    + destruct (f a) eqn:Ef; [|exact IH].
      apply H in Ef. congruence.
Qed.

Lemma filter_filter_andb {A : Type} (f g : A -> bool) (l : list A) :
  filter f (filter g l) = filter (fun a => f a && g a) l.
Proof.
  induction l as [|a l IH]; simpl.
  - reflexivity.
  - destruct (g a) eqn:Eg; simpl.
    + rewrite andb_true_r. destruct (f a); now rewrite IH.
    + rewrite andb_false_r. exact IH.
Qed.

Lemma firstOccurrences_filter (g : string -> bool) (l : list string) :
  firstOccurrences (filter g l) = filter g (firstOccurrences l).
Proof.
  induction l as [|x xs IH]; simpl.
  - reflexivity.
  - destruct (g x) eqn:Eg; simpl.
    + rewrite IH. f_equal. apply filter_filter_comm.
    + rewrite IH. symmetry. apply filter_drop_rejected.
      intros a Ha. destruct (String.eqb a x) eqn:E; [|reflexivity].
      apply String.eqb_eq in E. congruence.
Qed.

Lemma fold_setAddStr (l acc : list string) :
  fold_left setAddStr l acc
  = acc ++ firstOccurrences (filter (fun x => negb (existsb (String.eqb x) acc)) l).
Proof.
  revert acc. induction l as [|x xs IH]; intros acc; simpl.
  - now rewrite app_nil_r.
  - unfold setAddStr at 2. destruct (existsb (String.eqb x) acc) eqn:Ex; simpl.
    + apply IH.
    + rewrite IH, <- app_assoc. simpl. do 2 f_equal.
      rewrite <- firstOccurrences_filter. f_equal.
      rewrite filter_filter_andb. apply filter_ext. intros a.
      rewrite existsb_app. simpl. rewrite orb_false_r, negb_orb.
      apply andb_comm.
Qed.

Lemma arrayFromSet_firstOccurrences (l : list string) :
  arrayFromSet l = firstOccurrences l.
Proof.
  unfold arrayFromSet. rewrite fold_setAddStr. simpl. f_equal.
  induction l as [|x xs IH]; simpl; [reflexivity|now rewrite IH].
Qed.

Lemma firstOccurrences_In (x : string) (l : list string) :
  In x (firstOccurrences l) <-> In x l.
Proof.
  induction l as [|y ys IH]; simpl.
  - reflexivity.
  - rewrite filter_In, IH. split.
    + intros [H|[H _]]; auto.
    + intros [H|H]; [now left|].
      destruct (String.eqb x y) eqn:E.
      * left. apply String.eqb_eq in E. now subst.
      * right. split; [assumption|reflexivity].
Qed.

Lemma firstOccurrences_NoDup (l : list string) : NoDup (firstOccurrences l).
Proof.
  induction l as [|y ys IH]; simpl.
  - constructor.
  - constructor.
    + rewrite filter_In. intros [_ H]. rewrite String.eqb_refl in H. discriminate.
    + apply NoDup_filter, IH.
Qed.

Lemma secondariesOf_rows (cluster : list Contact) :
  secondariesOf (map Row cluster) = filter isSecondary cluster.
Proof.
  induction cluster as [|c cs IH]; simpl.
  - reflexivity.
  - destruct (isSecondary c); now rewrite IH.
Qed.

Lemma isSecondary_not_primary (c : Contact) : isSecondary c = negb (isPrimary c).
Proof.
  unfold isSecondary, isPrimary. destruct (linkPrecedence c); reflexivity.
Qed.

(** C8, as amended: for a cluster list in which a primary is found, the
    response names that primary; its emails are the primary's email
    followed by the secondaries' emails in list order, with NULLs and
    empty strings left out and each value kept at its first occurrence
    only; phoneNumbers is built the same way; secondaryContactIds holds
    the id of every non-primary member in list order.  Both lists are
    duplicate-free and a non-empty email or phone of the primary stays in
    first position. *)
Theorem response_lists_primary_first (cluster : list Contact) (p : Contact) :
  findPrimary (map Row cluster) = Some p ->
  exists r,
    buildResponse (map Row cluster) = Ok r
    /\ primaryContatctId r = id p
    /\ emails r
       = firstOccurrences
           (nonEmptyValues (email p :: map email (filter isSecondary cluster)))
    /\ phoneNumbers r
       = firstOccurrences
           (nonEmptyValues (phoneNumber p :: map phoneNumber (filter isSecondary cluster)))
    /\ secondaryContactIds r = map id (filter (fun c => negb (isPrimary c)) cluster)
    /\ NoDup (emails r)
    /\ NoDup (phoneNumbers r)
    /\ (forall e, email p = Some e -> e <> EmptyString -> hd_error (emails r) = Some e)
    /\ (forall n, phoneNumber p = Some n -> n <> EmptyString ->
                  hd_error (phoneNumbers r) = Some n).
Proof.
  intros Hp. unfold buildResponse. rewrite Hp, secondariesOf_rows.
  rewrite !arrayFromSet_firstOccurrences, !filterBoolean_nonEmptyValues.
  eexists. split; [reflexivity|]. simpl.
  repeat split.
  - f_equal. apply filter_ext. intros c. apply isSecondary_not_primary.
  - apply firstOccurrences_NoDup.
  - apply firstOccurrences_NoDup.
  - intros e He Hne. unfold nonEmptyValues. simpl. rewrite He. simpl.
    apply String.eqb_neq in Hne. rewrite Hne. reflexivity.
  - intros n Hn Hne. unfold nonEmptyValues. simpl. rewrite Hn. simpl.
    apply String.eqb_neq in Hne. rewrite Hne. reflexivity.
Qed.

(** Witness for C8 as amended: cluster B of the sample after a merge into
    contact 1. *)
Lemma response_lists_primary_first_witness :
  findPrimary (map Row mergedTable) = Some sampleA1
  /\ exists r,
       buildResponse (map Row mergedTable) = Ok r
       /\ primaryContatctId r = 1
       /\ emails r = ["a@x.io"%string; "b@x.io"%string]
       /\ phoneNumbers r = ["111"%string; "222"%string; "333"%string]
       /\ secondaryContactIds r = [2; 3; 4].
Proof.
  split; [reflexivity|].
  destruct (response_lists_primary_first mergedTable sampleA1 eq_refl)
    as (r & Hr & Hid & He & Hp & Hs & _).
  exists r. repeat split; assumption.
Defined.

(** C8 as stated fails: a primary whose email is the empty string has a
    non-null email, yet the response leaves it out, so the list is not
    the unique non-null emails with the primary's first. *)
Lemma empty_string_email_is_dropped :
  buildResponse [Row blankPrimary; Row plainSecondary]
  = Ok (mkResponse 1 ["b@x.io"%string] ["111"%string; "222"%string] [2])
  /\ specEmails blankPrimary [blankPrimary; plainSecondary]
     = [EmptyString; "b@x.io"%string]
  /\ ~ (forall cluster p r,
          findPrimary (map Row cluster) = Some p ->
          buildResponse (map Row cluster) = Ok r ->
          emails r = specEmails p cluster).
Proof.
  assert (E : buildResponse (map Row [blankPrimary; plainSecondary])
              = Ok (mkResponse 1 ["b@x.io"%string] ["111"%string; "222"%string] [2]))
    by (vm_compute; reflexivity).
  split; [exact E|]. split; [vm_compute; reflexivity|].
  intros H.
  specialize (H [blankPrimary; plainSecondary] blankPrimary _ eq_refl E).
  vm_compute in H. discriminate H.
Qed.

(* ================================================================= *)
(** ** Transactions of the cluster writer *)

Lemma asNum_keyParam (k : Key) : asNum (keyParam k) = keyNum k.
Proof. destruct k; reflexivity. Qed.

(** One demotion is all or nothing, whatever statement the store fails on. *)
Lemma convertPrimaryToSecondary_cases (k : Key) (newPrimaryId : Z) (w : World) :
  txn w = None ->
  match convertPrimaryToSecondary k newPrimaryId w with
  | (w', Ok _) =>
      rows w' = convertRows k newPrimaryId (now w) (rows w)
      /\ txn w' = None /\ now w' = now w /\ nextId w' = nextId w
  | (w', Err _) =>
      rows w' = rows w
      /\ txn w' = None /\ now w' = now w /\ nextId w' = nextId w
  end.
Proof.
  intros Ht. destruct w as [r nid t tx f i]. simpl in Ht. subst tx.
  unfold convertPrimaryToSecondary, tryCatchRethrow, bind, query, statement, convertRows.
  destruct f as [[|[|[|[|[|n]]]]]|]; simpl; unfold param; simpl;
    rewrite ?asNum_keyParam; auto.
Qed.

Lemma mergeGroup_cases (oldestPrimaryId : Z) (group : Key * list Item) (w : World) :
  txn w = None ->
  match mergeGroup oldestPrimaryId group w with
  | (w', Ok _) =>
      rows w' = mergedRows oldestPrimaryId (now w) [fst group] (rows w)
      /\ txn w' = None /\ now w' = now w /\ nextId w' = nextId w
  | (w', Err _) =>
      rows w' = rows w
      /\ txn w' = None /\ now w' = now w /\ nextId w' = nextId w
  end.
Proof.
  intros Ht. destruct group as [k g]. unfold mergeGroup, mergedRows. simpl.
  destruct (keyDiffers k oldestPrimaryId).
  - unfold bind.
    pose proof (convertPrimaryToSecondary_cases k oldestPrimaryId w Ht) as H.
    destruct (convertPrimaryToSecondary k oldestPrimaryId w) as [w' [[]|e]]; exact H.
  - simpl. auto.
Qed.

(** After the loop of lines 145-159, successful or not, the table holds
    the complete demotions of a prefix of the groups; all of them when the
    loop succeeded. *)
Lemma merge_loop_prefix (oldestPrimaryId : Z) (groups : list (Key * list Item))
    (w w' : World) (r : Res (list (Key * list Item))) :
  txn w = None ->
  forEachM (mergeGroup oldestPrimaryId) groups w = (w', r) ->
  exists n,
    (n <= List.length groups)%nat
    /\ rows w' = mergedRows oldestPrimaryId (now w) (firstn n (map fst groups)) (rows w)
    /\ txn w' = None
    /\ now w' = now w
    /\ nextId w' = nextId w
    /\ (forall l, r = Ok l -> n = List.length groups).
Proof.
  revert w w' r. induction groups as [|g gs IH]; intros w w' r Ht Hrun; simpl in Hrun.
  - inversion Hrun; subst. exists O. simpl. repeat split; auto.
  - unfold bind in Hrun.
    pose proof (mergeGroup_cases oldestPrimaryId g w Ht) as H.
    destruct (mergeGroup oldestPrimaryId g w) as [w1 [g'|e]].
    + destruct H as (Hr & Ht1 & Hn & Hid).
      destruct (forEachM (mergeGroup oldestPrimaryId) gs w1) as [w2 r2] eqn:Eloop.
      destruct (IH w1 w2 r2 Ht1 Eloop) as (n & Hle & Hrows & Htx & Hnow & Hnid & Hok).
      exists (S n).
      assert (Hw : w' = w2) by (destruct r2; inversion Hrun; reflexivity).
      subst w'. simpl.
      rewrite Hrows, Hr, Hn. unfold mergedRows. simpl.
      repeat split; try congruence; try lia.
      intros l Hl. f_equal. destruct r2 as [l2|e2].
      * apply (Hok l2). reflexivity.
      * inversion Hrun; subst. discriminate.
    + destruct H as (Hr & Ht1 & Hn & Hid). inversion Hrun; subst.
      exists O. simpl. repeat split; auto; try lia. intros l Hl. discriminate.
Qed.

Lemma query_select_keeps_rows (conditions : list Cond) (params : list SqlValue) (w : World) :
  rows (fst (query (SelectContacts conditions) params w)) = rows w.
Proof.
  unfold query, bind. destruct (statement_keeps_rows w) as (Hr & _).
  destruct (statement w) as [w1 [[]|e]]; simpl in *; [|assumption].
  repeat match goal with
         | |- context [if ?b then _ else _] => destruct b
         end; assumption.
Qed.


(* ================================================================= *)
(** ** Witnesses on the sample stores *)

(** Witness for C4: a request unknown to the two clusters of the sample. *)
Lemma identify_creates_primary_when_nothing_matches_witness :
  exists created,
    identify (mkRequest (Some "c@x.io"%string) None) twoClusters
    = (mkWorld (rows twoClusters ++ [created]) 5 100 None None 2,
       Ok (mkResponse (id created) ["c@x.io"%string] [] []))
    /\ id created = 4
    /\ linkPrecedence created = primary
    /\ linkedId created = None
    /\ email created = Some "c@x.io"%string
    /\ phoneNumber created = None
    /\ deletedAt created = None.
Proof.
  apply (identify_creates_primary_when_nothing_matches
           (mkRequest (Some "c@x.io"%string) None) twoClusters).
  - reflexivity.
  - reflexivity.
  - simpl. intros c [<-|[<-|[<-|[]]]] _; split; intros [H1 H2]; discriminate.
Defined.

(* ================================================================= *)
(** ** The cluster read and what depends on it *)

(** C1: on the sample store with the unrelated clusters A (contact 1,
    older) and B (contacts 2 and 3), the request carrying the email of
    contact 1 and the phone of contact 2 ends in the cluster read of
    [getAllLinkedContacts]: two placeholders, four bound values.  The
    request returns the bind error, contact 2 is still a primary and
    contact 3 still points at it.  The merge step alone, handed the two
    clusters and the new secondary, does demote contact 2 and re-point
    contact 3 and contact 4 to contact 1. *)
Theorem bridging_request_stops_at_cluster_read :
  identify bridgingRequest twoClusters
  = (mkWorld [sampleA1; sampleB1; sampleB2] 4 100 None None 2, Err BindError)
  /\ getAllLinkedContacts [sampleA1; sampleB1] twoClusters
     = (mkWorld [sampleA1; sampleB1; sampleB2] 4 100 None None 1, Err BindError)
  /\ handleContactChainMerging
       (map Row [sampleA1; sampleB1; sampleB2] ++ [RowsArray [bridgingSecondary]])
       (reqEmail bridgingRequest) (reqPhoneNumber bridgingRequest)
       twoClustersAndSecondary
     = (mkWorld mergedTable 5 100 None None 9, Ok (map Row mergedTable)).
Proof.
  split; [vm_compute; reflexivity|]. split; vm_compute; reflexivity.
Qed.

(** C2: on the sample store holding the single primary 1 with email
    a@x.io, the request with that email and the unseen phone 999 ends in
    the cluster read too: the bind error is returned and no secondary is
    created.  Lines 40-51 alone, handed the cluster, do create the one
    secondary and answer with a@x.io once, 999 and the new id, although
    [createSecondaryContact] hands back the array of rows in place of the
    row. *)
Theorem known_email_new_phone_stops_at_cluster_read :
  identify knownEmailNewPhone onePrimary
  = (mkWorld [sampleA1] 2 100 None None 2, Err BindError)
  /\ createSecondaryContact (reqEmail knownEmailNewPhone) (reqPhoneNumber knownEmailNewPhone)
       1 onePrimary
     = (let created := mkContact 2 (Some "999"%string) (Some "a@x.io"%string) (Some 1)
                         secondary 100 100 None in
        (mkWorld [sampleA1; created] 3 100 None None 1, Ok (RowsArray [created])))
  /\ needsNewSecondaryContact [sampleA1]
       (reqEmail knownEmailNewPhone) (reqPhoneNumber knownEmailNewPhone) = true
  /\ findOldestPrimary [sampleA1] = Some sampleA1
  /\ (newSecondary <- createSecondaryContact (reqEmail knownEmailNewPhone)
                        (reqPhoneNumber knownEmailNewPhone) (id sampleA1) ;;
      finalContacts <- handleContactChainMerging (map Row [sampleA1] ++ [newSecondary])
                         (reqEmail knownEmailNewPhone) (reqPhoneNumber knownEmailNewPhone) ;;
      liftRes (buildResponse finalContacts)) onePrimary
     = (mkWorld
          [sampleA1;
           mkContact 2 (Some "999"%string) (Some "a@x.io"%string) (Some 1) secondary
             100 100 None]
          3 100 None None 6,
        Ok (mkResponse 1 ["a@x.io"%string] ["111"%string; "999"%string] [2])).
Proof.
  repeat split; vm_compute; reflexivity.
Qed.

(** C3: on the sample store holding one cluster, contact 1 (primary,
    a@x.io, 111) and contact 2 (its secondary, c@x.io, 222), the request
    with email a@x.io and phone 222 matches both members; its email is on
    contact 1, its phone on contact 2 and the pair on neither, so
    [needsNewSecondaryContact] asks for a new secondary on that cluster.
    identify does not get to evaluate it: the request ends in the cluster
    read with the bind error and no row has been added.  Line 44 alone,
    run on that store, does insert the secondary that records the pair. *)
Theorem novel_pair_request_adds_no_secondary :
  matchedCluster (rows splitPair) (reqEmail bridgingRequest) (reqPhoneNumber bridgingRequest)
  = [sampleA1; splitPairSecondary]
  /\ email sampleA1 = reqEmail bridgingRequest
  /\ phoneNumber splitPairSecondary = reqPhoneNumber bridgingRequest
  /\ (forall c, In c [sampleA1; splitPairSecondary] ->
                ~ (email c = orNull (reqEmail bridgingRequest)
                   /\ phoneNumber c = orNull (reqPhoneNumber bridgingRequest)))
  /\ needsNewSecondaryContact [sampleA1; splitPairSecondary]
       (reqEmail bridgingRequest) (reqPhoneNumber bridgingRequest) = true
  /\ identify bridgingRequest splitPair
     = (mkWorld [sampleA1; splitPairSecondary] 3 100 None None 2, Err BindError)
  /\ createSecondaryContact (reqEmail bridgingRequest) (reqPhoneNumber bridgingRequest)
       1 splitPair
     = (let created := mkContact 3 (Some "222"%string) (Some "a@x.io"%string) (Some 1)
                         secondary 100 100 None in
        (mkWorld [sampleA1; splitPairSecondary; created] 4 100 None None 1,
         Ok (RowsArray [created]))).
Proof.
  split; [vm_compute; reflexivity|].
  split; [reflexivity|].
  split; [reflexivity|].
  split.
  { intros c [<-|[<-|[]]] [Hm Hp]; vm_compute in Hm, Hp;
      first [discriminate Hm | discriminate Hp]. }
  split; [vm_compute; reflexivity|].
  split; vm_compute; reflexivity.
Qed.

(* ================================================================= *)
(** ** Further properties: reading the store *)

Lemma insertByCreatedAt_Permutation (x : Contact) (l : list Contact) :
  Permutation (insertByCreatedAt x l) (x :: l).
Proof.
  induction l as [|y ys IH]; simpl.
  - apply Permutation_refl.
  - destruct (createdAt x <=? createdAt y).
    + apply Permutation_refl.
    + apply perm_trans with (y :: x :: ys).
      * apply perm_skip, IH.
      * apply perm_swap.
Qed.

Lemma sortByCreatedAt_Permutation (l : list Contact) :
  Permutation (sortByCreatedAt l) l.
Proof.
  induction l as [|x xs IH]; simpl.
  - apply Permutation_refl.
  - apply perm_trans with (x :: sortByCreatedAt xs).
    + apply insertByCreatedAt_Permutation.
    + apply perm_skip, IH.
Qed.

Lemma insertByCreatedAt_sorted (x : Contact) (l : list Contact) :
  StronglySorted notYounger l -> StronglySorted notYounger (insertByCreatedAt x l).
Proof.
  induction l as [|y ys IH]; intros Hs; simpl.
  - constructor; constructor.
  - inversion Hs as [|? ? Hys Hall]; subst.
    destruct (createdAt x <=? createdAt y) eqn:E.
    + apply Z.leb_le in E. constructor; [assumption|].
      constructor; [exact E|].
      rewrite Forall_forall in *. intros c Hc. specialize (Hall c Hc).
      unfold notYounger in *. lia.
    + apply Z.leb_gt in E. constructor; [apply IH, Hys|].
      rewrite Forall_forall in *. intros c Hc.
      apply insertByCreatedAt_In in Hc. destruct Hc as [->|Hc].
      * unfold notYounger. lia.
      * apply Hall, Hc.
Qed.

Lemma sortByCreatedAt_sorted (l : list Contact) :
  StronglySorted notYounger (sortByCreatedAt l).
Proof.
  induction l as [|x xs IH]; simpl.
  - constructor.
  - apply insertByCreatedAt_sorted, IH.
Qed.

Lemma matchesRequest_true (mail phone : option string) (c : Contact) :
  matchesRequest mail phone c = true
  <-> (truthy mail = true /\ email c = mail)
      \/ (truthy phone = true /\ phoneNumber c = phone).
Proof.
  unfold matchesRequest. rewrite orb_true_iff, !andb_true_iff, !sqlEqStr_eq.
  split.
  - intros [[Ht (v & H1 & H2)]|[Ht (v & H1 & H2)]]; [left|right]; split; congruence.
  - intros [[Ht He]|[Ht He]]; [left|right]; (split; [assumption|]).
    + destruct mail as [v|]; [|discriminate]. exists v. auto.
    + destruct phone as [v|]; [|discriminate]. exists v. auto.
Qed.

(** X1: on a healthy store, [findExistingContacts] called with at least
    one identifier sends one statement, writes nothing and returns exactly
    the rows that are not deleted and carry the given email or the given
    phone number, each as often as it is stored, ordered by createdAt
    ascending. *)
Theorem findExistingContacts_returns_the_matches
    (mail phone : option string) (w : World) :
  faults w = None ->
  truthy mail || truthy phone = true ->
  exists found,
    findExistingContacts mail phone w = (sent w, Ok found)
    /\ (forall c, In c found
                  <-> In c (rows w) /\ deletedAt c = None
                      /\ ((truthy mail = true /\ email c = mail)
                          \/ (truthy phone = true /\ phoneNumber c = phone)))
    /\ StronglySorted notYounger found
    /\ Permutation found
         (filter (fun c => matchesRequest mail phone c && notDeleted c) (rows w)).
Proof.
  intros Hf Hv. exists (matchesOf (rows w) mail phone).
  split; [apply findExistingContacts_healthy; assumption|].
  unfold matchesOf. split; [|split].
  - intros c. rewrite sortByCreatedAt_In, filter_In, andb_true_iff,
      matchesRequest_true, notDeleted_true. tauto.
  - apply sortByCreatedAt_sorted.
  - apply sortByCreatedAt_Permutation.
Qed.

(** Witness for X1: the bridging request on the two clusters of the sample. *)
Lemma findExistingContacts_returns_the_matches_witness :
  exists found,
    findExistingContacts (Some "a@x.io"%string) (Some "222"%string) twoClusters
    = (sent twoClusters, Ok found)
    /\ (forall c, In c found
                  <-> In c (rows twoClusters) /\ deletedAt c = None
                      /\ ((truthy (Some "a@x.io"%string) = true
                           /\ email c = Some "a@x.io"%string)
                          \/ (truthy (Some "222"%string) = true
                              /\ phoneNumber c = Some "222"%string)))
    /\ StronglySorted notYounger found
    /\ Permutation found
         (filter (fun c => matchesRequest (Some "a@x.io"%string) (Some "222"%string) c
                           && notDeleted c) (rows twoClusters)).
Proof.
  apply (findExistingContacts_returns_the_matches
           (Some "a@x.io"%string) (Some "222"%string) twoClusters); reflexivity.
Defined.

Lemma existsb_Zeqb_In (k : Z) (s : list Z) : existsb (Z.eqb k) s = true <-> In k s.
Proof.
  rewrite existsb_exists. split.
  - intros (x & Hx & E). apply Z.eqb_eq in E. now subst.
  - intros H. exists k. split; [assumption|apply Z.eqb_refl].
Qed.

Lemma setAddNum_spec (s : list Z) (k : Z) :
  (NoDup s -> NoDup (setAddNum s k))
  /\ (forall x, In x (setAddNum s k) <-> In x s \/ x = k).
Proof.
  unfold setAddNum. destruct (existsb (Z.eqb k) s) eqn:E.
  - apply existsb_Zeqb_In in E. split; [auto|].
    intros x. split; [auto|]. intros [H | ->]; assumption.
  - assert (Hn : ~ In k s).
    { intros H. apply existsb_Zeqb_In in H. congruence. }
    split.
    + intros Hs. apply NoDup_app; [assumption|constructor; [intros []|constructor]|].
      intros x Hx [<-|[]]. contradiction.
    + intros x. rewrite in_app_iff. simpl. intuition.
Qed.

(** The id a contact contributes to the set of lines 84-92, if any. *)
Lemma primaryIds_fold_spec (contacts : list Contact) (acc : list Z) :
  let step := fun primaryIds contact =>
                if isPrimary contact then setAddNum primaryIds (id contact)
                else if truthyNum (linkedId contact) then
                       match linkedId contact with
                       | Some k => setAddNum primaryIds k
                       | None => primaryIds
                       end
                     else primaryIds in
  (NoDup acc -> NoDup (fold_left step contacts acc))
  /\ (forall k, In k (fold_left step contacts acc)
                <-> In k acc
                    \/ exists c, In c contacts
                                 /\ ((isPrimary c = true /\ id c = k)
                                     \/ (isPrimary c = false /\ linkedId c = Some k
                                         /\ k <> 0))).
Proof.
  intros step. revert acc. induction contacts as [|c cs IH]; intros acc; simpl.
  - split; [auto|]. intros k. split; [auto|]. intros [H|(c & [] & _)]. exact H.
  - destruct (IH (step acc c)) as [IHn IHm]. split.
    + intros Hacc. apply IHn. unfold step.
      destruct (isPrimary c); [apply setAddNum_spec, Hacc|].
      destruct (truthyNum (linkedId c)); [|exact Hacc].
      destruct (linkedId c); [apply setAddNum_spec, Hacc|exact Hacc].
    + intros k. rewrite IHm. clear IHn IHm IH.
      assert (Hstep : In k (step acc c)
                      <-> In k acc
                          \/ ((isPrimary c = true /\ id c = k)
                              \/ (isPrimary c = false /\ linkedId c = Some k /\ k <> 0))).
      { unfold step. destruct (isPrimary c) eqn:Ep.
        - rewrite (proj2 (setAddNum_spec acc (id c))). intuition congruence.
        - unfold truthyNum. destruct (linkedId c) as [z|] eqn:El.
          + destruct (z =? 0) eqn:Ez; simpl.
            * apply Z.eqb_eq in Ez. subst z.
              split; [auto|]. intros [H|[[H _]|(_ & H & Hk)]]; try assumption;
                try discriminate. inversion H. congruence.
            * apply Z.eqb_neq in Ez. rewrite (proj2 (setAddNum_spec acc z)).
              split.
              -- intros [H | ->]; [auto|]. right. right. auto.
              -- intros [H|[[H _]|(_ & H & Hk)]]; [auto|discriminate|].
                 inversion H. auto.
          + simpl. split; [auto|].
            intros [H|[[H _]|(_ & H & _)]]; [assumption|discriminate|discriminate]. }
      rewrite Hstep. split.
      * intros [[H|H]|(c' & Hc' & H)].
        -- now left.
        -- right. exists c. split; [now left|exact H].
        -- right. exists c'. split; [now right|exact H].
      * intros [H|(c' & [<-|Hc'] & H)].
        -- left. now left.
        -- left. now right.
        -- right. exists c'. auto.
Qed.

(** X2: the set of primary ids computed from the seed contacts holds no
    id twice and holds exactly the ids of the seed's primaries and the
    non-zero linkedIds of its other rows; a non-primary row whose linkedId
    is NULL or 0 contributes nothing. *)
Theorem primaryIdsOf_is_the_set_of_cluster_heads (contacts : list Contact) :
  NoDup (primaryIdsOf contacts)
  /\ (forall k, In k (primaryIdsOf contacts)
                <-> exists c, In c contacts
                              /\ ((isPrimary c = true /\ id c = k)
                                  \/ (isPrimary c = false /\ linkedId c = Some k
                                      /\ k <> 0))).
Proof.
  destruct (primaryIds_fold_spec contacts []) as [Hn Hm]. split.
  - apply Hn. constructor.
  - intros k. unfold primaryIdsOf. rewrite (Hm k). simpl. tauto.
Qed.

(** X3: [getAllLinkedContacts] returns the empty list for an empty seed
    without sending anything, and for a non-empty seed it never returns
    rows, whatever the store holds: it sends its one statement, writes
    nothing and ends in an error, which on a healthy store is the bind
    error (twice as many values as placeholders) or, when no seed row
    yields a primary id, the syntax error of the empty IN list. *)
Theorem getAllLinkedContacts_never_returns_a_cluster
    (contacts : list Contact) (w : World) :
  getAllLinkedContacts [] w = (w, Ok [])
  /\ (contacts <> [] ->
      rows (fst (getAllLinkedContacts contacts w)) = rows w
      /\ nextId (fst (getAllLinkedContacts contacts w)) = nextId w
      /\ issued (fst (getAllLinkedContacts contacts w)) = S (issued w)
      /\ (exists e, snd (getAllLinkedContacts contacts w) = Err e)
      /\ (faults w = None ->
          snd (getAllLinkedContacts contacts w)
          = Err (match primaryIdsOf contacts with
                 | [] => SqlSyntaxError
                 | _ => BindError
                 end))).
Proof.
  split; [reflexivity|]. intros Hne.
  rewrite (getAllLinkedContacts_run contacts w Hne).
  unfold statement. destruct (faults w) as [[|n]|]; simpl;
    repeat split; try (eexists; reflexivity); try discriminate; auto.
Qed.

(** Witness for X3: the seed of the bridging request on the two clusters. *)
Lemma getAllLinkedContacts_never_returns_a_cluster_witness :
  rows (fst (getAllLinkedContacts [sampleA1; sampleB1] twoClusters)) = rows twoClusters
  /\ snd (getAllLinkedContacts [sampleA1; sampleB1] twoClusters) = Err BindError.
Proof.
  destruct (getAllLinkedContacts_never_returns_a_cluster [sampleA1; sampleB1] twoClusters)
    as [_ H].
  assert (Hne : [sampleA1; sampleB1] <> []) by discriminate.
  destruct (H Hne) as (Hr & _ & _ & _ & He).
  split; [exact Hr|]. exact (He eq_refl).
Defined.

(* ================================================================= *)
(** ** Further properties: what a request can write *)

Lemma createPrimaryContact_run (mail phone : option string) (w : World) :
  createPrimaryContact mail phone w
  = match statement w with
    | (w1, Ok _) =>
        let c := mkContact (nextId w) (orNull phone) (orNull mail) None primary
                   (now w) (now w) None in
        (mkWorld (rows w ++ [c]) (nextId w + 1) (now w) (txn w) (faults w1) (issued w1),
         Ok c)
    | (w1, Err e) => (w1, Err e)
    end.
Proof.
  unfold createPrimaryContact, bind, query, bind, statement.
  destruct (faults w) as [[|n]|]; simpl; unfold newRow, param; simpl;
    rewrite ?asStr_strParam; reflexivity.
Qed.

Lemma identify_footprint (request : IdentifyRequest) (w : World) :
  match identify request w with
  | (w', Ok response) =>
      exists c,
        rows w' = rows w ++ [c]
        /\ nextId w' = nextId w + 1
        /\ id c = nextId w
        /\ linkPrecedence c = primary
        /\ linkedId c = None
        /\ email c = orNull (reqEmail request)
        /\ phoneNumber c = orNull (reqPhoneNumber request)
        /\ response = mkResponse (id c) (filterBoolean [reqEmail request])
                        (filterBoolean [reqPhoneNumber request]) []
        /\ matchesOf (rows w) (reqEmail request) (reqPhoneNumber request) = []
  | (w', Err _) => rows w' = rows w /\ nextId w' = nextId w
  end.
Proof.
  destruct (matchesOf (rows w) (reqEmail request) (reqPhoneNumber request)) as [|m ms] eqn:Em.
  - unfold identify.
    destruct (negb (truthy (reqEmail request)) && negb (truthy (reqPhoneNumber request)))
      eqn:Hn.
    + simpl. auto.
    + assert (Hv : truthy (reqEmail request) || truthy (reqPhoneNumber request) = true).
      { destruct (truthy (reqEmail request)), (truthy (reqPhoneNumber request));
          simpl in *; congruence. }
      unfold bind at 1. rewrite findExistingContacts_run by assumption.
      destruct (statement_keeps_rows w) as (Hr & Hi & _ & Hnow).
      destruct (statement w) as [w1 [[]|e]] eqn:Es; simpl in Hr, Hi, Hnow; [|auto].
      rewrite Em. unfold bind. rewrite createPrimaryContact_run.
      destruct (statement_keeps_rows w1) as (Hr1 & Hi1 & _ & Hnow1).
      destruct (statement w1) as [w2 [[]|e]] eqn:Es1; simpl in Hr1, Hi1, Hnow1.
      * unfold liftRes. rewrite Hr, Hi.
        destruct request as [[[|a s]|] [[|b t]|]]; simpl in *;
          try discriminate; eexists; repeat split; reflexivity.
      * split; congruence.
  - assert (Hm : matchesOf (rows w) (reqEmail request) (reqPhoneNumber request) <> [])
      by (rewrite Em; discriminate).
    destruct (identify_with_match_writes_nothing request w Hm) as (Hr & Hi & e & He).
    destruct (identify request w) as [w' r]. simpl in *. subst r. auto.
Qed.

(** X4: whatever the request and whatever the state of the store,
    identify either leaves the table and the id sequence as they were and
    returns an error, or appends exactly one row, a primary without link
    holding the request's identifiers under the next id of the sequence,
    and answers with that id as primary and no secondary; the latter only
    when no stored contact matched.  It never changes or removes a row. *)
Theorem identify_writes_at_most_one_new_primary (request : IdentifyRequest) (w : World) :
  match identify request w with
  | (w', Ok response) =>
      exists c,
        rows w' = rows w ++ [c]
        /\ nextId w' = nextId w + 1
        /\ id c = nextId w
        /\ linkPrecedence c = primary
        /\ linkedId c = None
        /\ email c = orNull (reqEmail request)
        /\ phoneNumber c = orNull (reqPhoneNumber request)
        /\ response = mkResponse (id c) (filterBoolean [reqEmail request])
                        (filterBoolean [reqPhoneNumber request]) []
        /\ matchesOf (rows w) (reqEmail request) (reqPhoneNumber request) = []
  | (w', Err _) => rows w' = rows w /\ nextId w' = nextId w
  end.
Proof.
  exact (identify_footprint request w).
Qed.

(* ================================================================= *)
(** ** What a failing store leaves of a request *)





(* ================================================================= *)
(** ** Further properties: one demotion *)

Lemma convertRows_map (k : Key) (q t : Z) (table : list Contact) :
  convertRows k q t table = map (convertRow k q t) table.
Proof.
  unfold convertRows, updateRows. rewrite map_map. apply map_ext.
  intros c. reflexivity.
Qed.

Lemma convertPrimaryToSecondary_healthy (k : Key) (q : Z) (w : World) :
  faults w = None ->
  txn w = None ->
  convertPrimaryToSecondary k q w
  = (mkWorld (convertRows k q (now w) (rows w)) (nextId w) (now w) None None
       (4 + issued w),
     Ok tt).
Proof.
  intros Hf Ht. destruct w as [r nid t tx f i]. simpl in Hf, Ht. subst tx f.
  unfold convertPrimaryToSecondary, tryCatchRethrow, bind, query, statement, convertRows.
  simpl. unfold param. simpl. rewrite ?asNum_keyParam. reflexivity.
Qed.

Lemma convertRow_keeps_identity (k : Key) (q t : Z) (c : Contact) :
  id (convertRow k q t c) = id c
  /\ email (convertRow k q t c) = email c
  /\ phoneNumber (convertRow k q t c) = phoneNumber c
  /\ createdAt (convertRow k q t c) = createdAt c
  /\ deletedAt (convertRow k q t c) = deletedAt c.
Proof.
  unfold convertRow.
  destruct (sqlEqNum (Some (id c)) (keyNum k)); simpl;
    match goal with
    | |- context [if ?b then _ else _] => destruct b
    end; simpl; auto.
Qed.

Lemma sqlEqNum_true (a b : option Z) :
  sqlEqNum a b = true <-> exists v, a = Some v /\ b = Some v.
Proof.
  destruct a as [x|], b as [y|]; simpl; split; intros H;
    try discriminate; try (destruct H as (v & H1 & H2); discriminate).
  - apply Z.eqb_eq in H. subst. now exists y.
  - destruct H as (v & H1 & H2). inversion H1; inversion H2; subst. apply Z.eqb_refl.
Qed.

Lemma sqlEqNum_null (a : option Z) : sqlEqNum a None = false.
Proof. destruct a; reflexivity. Qed.

Lemma convertRow_without_key (k : Key) (q t : Z) (c : Contact) :
  keyNum k = None -> convertRow k q t c = c.
Proof.
  intros Hk. unfold convertRow. rewrite Hk. simpl. now rewrite sqlEqNum_null.
Qed.

Lemma convertRow_demoted (kz q t : Z) (c : Contact) :
  kz <> q ->
  id c = kz ->
  convertRow (KNum kz) q t c = demote (Some q) secondary t c.
Proof.
  intros Hne Hid. unfold convertRow. simpl. rewrite Hid, Z.eqb_refl. simpl.
  apply Z.eqb_neq in Hne. rewrite Z.eqb_sym, Hne. reflexivity.
Qed.

Lemma convertRow_repointed (kz q t : Z) (c : Contact) :
  id c <> kz ->
  linkedId c = Some kz ->
  convertRow (KNum kz) q t c = repoint (Some q) t c.
Proof.
  intros Hid Hl. unfold convertRow. simpl.
  apply Z.eqb_neq in Hid. rewrite Hid, Hl. simpl. now rewrite Z.eqb_refl.
Qed.

Lemma convertRow_untouched (kz q t : Z) (c : Contact) :
  id c <> kz ->
  linkedId c <> Some kz ->
  convertRow (KNum kz) q t c = c.
Proof.
  intros Hid Hl. unfold convertRow. simpl.
  apply Z.eqb_neq in Hid. rewrite Hid.
  destruct (linkedId c) as [z|] eqn:El; simpl; [|reflexivity].
  destruct (z =? kz) eqn:Ez; [|reflexivity].
  apply Z.eqb_eq in Ez. subst z. congruence.
Qed.

Lemma convertRow_cases (kz q t : Z) (c : Contact) :
  kz <> q ->
  (id c = kz /\ convertRow (KNum kz) q t c = demote (Some q) secondary t c)
  \/ (id c <> kz /\ linkedId c = Some kz
      /\ convertRow (KNum kz) q t c = repoint (Some q) t c)
  \/ (id c <> kz /\ linkedId c <> Some kz /\ convertRow (KNum kz) q t c = c).
Proof.
  intros Hne. destruct (Z.eq_dec (id c) kz) as [Hid|Hid].
  - left. split; [assumption|]. now apply convertRow_demoted.
  - right. destruct (linkedId c) as [z|] eqn:El.
    + destruct (Z.eq_dec z kz) as [->|Hz].
      * left. split; [assumption|]. split; [reflexivity|].
        now apply convertRow_repointed.
      * right. split; [assumption|]. split; [congruence|].
        apply convertRow_untouched; [assumption|]. rewrite El. congruence.
    + right. split; [assumption|]. split; [discriminate|].
      apply convertRow_untouched; [assumption|]. rewrite El. discriminate.
Qed.

Lemma convertRow_storedIdentity (k : Key) (q t : Z) (c : Contact) :
  storedIdentity (convertRow k q t c) = storedIdentity c.
Proof.
  unfold storedIdentity.
  destruct (convertRow_keeps_identity k q t c) as (H1 & H2 & H3 & H4 & H5).
  now rewrite H1, H2, H3, H4, H5.
Qed.

(** X5: on a healthy store with no transaction open, demoting the
    primary [k] under another id [newPrimaryId] succeeds with four
    statements and changes links only: the table holds the same rows as
    before as far as id, email, phone, createdAt and deletedAt go, none
    added and none removed; the row with id [k] is a secondary of
    [newPrimaryId]; no row, deleted or not, is left with linkedId [k];
    and a row that neither had id [k] nor pointed at [k] is as it was. *)
Theorem demotion_repoints_every_dependent (k newPrimaryId : Z) (w : World) :
  faults w = None ->
  txn w = None ->
  k <> newPrimaryId ->
  exists w',
    convertPrimaryToSecondary (KNum k) newPrimaryId w = (w', Ok tt)
    /\ issued w' = (4 + issued w)%nat
    /\ nextId w' = nextId w
    /\ txn w' = None
    /\ Permutation (map storedIdentity (rows w')) (map storedIdentity (rows w))
    /\ (forall c, In c (rows w') -> linkedId c <> Some k)
    /\ (forall c, In c (rows w') -> id c = k ->
                  linkPrecedence c = secondary /\ linkedId c = Some newPrimaryId)
    /\ (forall c, In c (rows w) -> id c <> k -> linkedId c <> Some k -> In c (rows w')).
Proof.
  intros Hf Ht Hne. eexists. split; [apply convertPrimaryToSecondary_healthy; assumption|].
  cbn [rows nextId txn issued]. rewrite convertRows_map.
  split; [reflexivity|]. split; [reflexivity|]. split; [reflexivity|].
  split.
  { rewrite map_map.
    rewrite (map_ext _ storedIdentity (convertRow_storedIdentity (KNum k) newPrimaryId (now w))).
    apply Permutation_refl. }
  split.
  { intros c Hc. apply in_map_iff in Hc. destruct Hc as (c0 & <- & _).
    destruct (convertRow_cases k newPrimaryId (now w) c0 Hne)
      as [[_ ->]|[(_ & _ & ->)|(_ & Hl & ->)]]; simpl; congruence. }
  split.
  { intros c Hc Hid. apply in_map_iff in Hc. destruct Hc as (c0 & <- & _).
    destruct (convertRow_cases k newPrimaryId (now w) c0 Hne)
      as [[_ E]|[(Hid0 & _ & E)|(Hid0 & _ & E)]].
    - rewrite E. simpl. auto.
    - exfalso. apply Hid0. rewrite <- Hid. symmetry. apply convertRow_keeps_identity.
    - exfalso. apply Hid0. rewrite <- Hid. symmetry. apply convertRow_keeps_identity. }
  intros c Hc Hid Hl. apply in_map_iff. exists c. split; [|assumption].
  now apply convertRow_untouched.
Qed.

(** Witness for X5: demoting contact 2 of the sample under contact 1. *)
Lemma demotion_repoints_every_dependent_witness :
  exists w',
    convertPrimaryToSecondary (KNum 2) 1 twoClusters = (w', Ok tt)
    /\ Permutation (map storedIdentity (rows w')) (map storedIdentity (rows twoClusters))
    /\ (forall c, In c (rows w') -> linkedId c <> Some 2)
    /\ (forall c, In c (rows w') -> id c = 2 ->
                  linkPrecedence c = secondary /\ linkedId c = Some 1)
    /\ In sampleA1 (rows w').
Proof.
  assert (Hne : 2 <> 1) by lia.
  destruct (demotion_repoints_every_dependent 2 1 twoClusters eq_refl eq_refl Hne)
    as (w' & Hrun & _ & _ & _ & Hperm & Hno & Hdem & Hsame).
  exists w'. split; [exact Hrun|]. split; [exact Hperm|].
  split; [exact Hno|]. split; [exact Hdem|].
  apply Hsame.
  - simpl. now left.
  - simpl. lia.
  - simpl. discriminate.
Defined.

Lemma convertRows_without_key (k : Key) (q t : Z) (table : list Contact) :
  keyNum k = None -> convertRows k q t table = table.
Proof.
  intros Hk. rewrite convertRows_map. rewrite <- (map_id table) at 2.
  apply map_ext. intros c. now apply convertRow_without_key.
Qed.

(** X6: called with a group key that is [null] or [undefined] (a
    secondary without link, or the array pushed at line 45), the demotion
    binds NULL for the id: its two updates select no row.  Whatever the
    store does, the table is left as it was; on a healthy store the four
    statements of the transaction are sent all the same and the call
    succeeds. *)
Theorem demotion_without_key_changes_no_row (k : Key) (newPrimaryId : Z) (w : World) :
  keyNum k = None ->
  txn w = None ->
  rows (fst (convertPrimaryToSecondary k newPrimaryId w)) = rows w
  /\ nextId (fst (convertPrimaryToSecondary k newPrimaryId w)) = nextId w
  /\ (faults w = None ->
      convertPrimaryToSecondary k newPrimaryId w
      = (mkWorld (rows w) (nextId w) (now w) None None (4 + issued w), Ok tt)).
Proof.
  intros Hk Ht.
  pose proof (convertPrimaryToSecondary_cases k newPrimaryId w Ht) as H.
  split; [|split].
  - destruct (convertPrimaryToSecondary k newPrimaryId w) as [w' [[]|e]]; simpl;
      destruct H as (Hr & _); rewrite Hr; [now apply convertRows_without_key|reflexivity].
  - destruct (convertPrimaryToSecondary k newPrimaryId w) as [w' [[]|e]]; simpl;
      destruct H as (_ & _ & _ & Hn); exact Hn.
  - intros Hf. rewrite convertPrimaryToSecondary_healthy by assumption.
    now rewrite convertRows_without_key.
Qed.

(** Witness for X6: the key of the pushed array, on the two clusters. *)
Lemma demotion_without_key_changes_no_row_witness :
  rows (fst (convertPrimaryToSecondary KUndefined 1 twoClusters)) = rows twoClusters
  /\ convertPrimaryToSecondary KUndefined 1 twoClusters
     = (mkWorld (rows twoClusters) 4 100 None None 4, Ok tt).
Proof.
  destruct (demotion_without_key_changes_no_row KUndefined 1 twoClusters eq_refl eq_refl)
    as (Hr & _ & Hh).
  split; [exact Hr|]. exact (Hh eq_refl).
Defined.

(* ================================================================= *)
(** ** Further properties: grouping by primary *)

Lemma Key_eqb_eq (a b : Key) : Key_eqb a b = true <-> a = b.
Proof.
  destruct a as [x| |], b as [y| |]; simpl; split; intros H;
    try discriminate; try reflexivity.
  - apply Z.eqb_eq in H. now subst.
  - inversion H. apply Z.eqb_refl.
Qed.

Lemma Key_eqb_refl (a : Key) : Key_eqb a a = true.
Proof. now apply Key_eqb_eq. Qed.

Lemma Key_eqb_neq (a b : Key) : Key_eqb a b = false <-> a <> b.
Proof.
  rewrite <- Key_eqb_eq. destruct (Key_eqb a b); split; congruence.
Qed.

Lemma Key_eq_dec (a b : Key) : {a = b} + {a <> b}.
Proof.
  decide equality. apply Z.eq_dec.
Defined.

Lemma groupPush_known (k : Key) (it : Item) (G : Key -> list Item) (keys : list Key) :
  NoDup keys ->
  In k keys ->
  groupPush k it (map (fun k' => (k', G k')) keys)
  = map (fun k' => (k', if Key_eqb k k' then G k' ++ [it] else G k')) keys.
Proof.
  induction keys as [|k1 r IH]; intros Hnd Hin; [contradiction|].
  inversion Hnd as [|? ? Hnotin Hr]; subst. simpl.
  destruct (Key_eqb k k1) eqn:E.
  - apply Key_eqb_eq in E. subst k1. f_equal.
    apply map_ext_in. intros k' Hk'.
    assert (Hne : Key_eqb k k' = false).
    { apply Key_eqb_neq. intros ->. contradiction. }
    now rewrite Hne.
  - f_equal. apply IH; [assumption|].
    destruct Hin as [->|Hin]; [|assumption].
    rewrite Key_eqb_refl in E. discriminate.
Qed.

Lemma groupPush_new (k : Key) (it : Item) (groups : list (Key * list Item)) :
  ~ In k (map fst groups) ->
  groupPush k it groups = groups ++ [(k, [it])].
Proof.
  induction groups as [|[k1 g1] r IH]; intros Hn; simpl.
  - reflexivity.
  - assert (Hne : Key_eqb k k1 = false).
    { apply Key_eqb_neq. intros ->. apply Hn. now left. }
    rewrite Hne. f_equal. apply IH. intros H. apply Hn. now right.
Qed.

Lemma groupMembers_app (k : Key) (l : list Item) (x : Item) :
  groupMembers k (l ++ [x])
  = groupMembers k l ++ (if Key_eqb (primaryKey x) k then [x] else []).
Proof.
  unfold groupMembers. rewrite filter_app. simpl.
  destruct (Key_eqb (primaryKey x) k); reflexivity.
Qed.

Lemma contactGroupsOf_app (l : list Item) (x : Item) :
  contactGroupsOf (l ++ [x]) = groupPush (primaryKey x) x (contactGroupsOf l).
Proof.
  unfold contactGroupsOf. now rewrite fold_left_app.
Qed.

Lemma contactGroupsOf_shape (contacts : list Item) :
  NoDup (map fst (contactGroupsOf contacts))
  /\ contactGroupsOf contacts
     = map (fun k => (k, groupMembers k contacts)) (map fst (contactGroupsOf contacts))
  /\ (forall k, In k (map fst (contactGroupsOf contacts))
                <-> exists it, In it contacts /\ primaryKey it = k).
Proof.
  induction contacts as [|x l IH] using rev_ind.
  - simpl. split; [constructor|]. split; [reflexivity|].
    intros k. split; [intros []|intros (it & [] & _)].
  - destruct IH as (Hnd & Hshape & Hkeys).
    rewrite contactGroupsOf_app.
    set (keys := map fst (contactGroupsOf l)) in *.
    destruct (in_dec Key_eq_dec (primaryKey x) keys) as [Hin|Hnin].
    + rewrite Hshape, (groupPush_known _ _ _ _ Hnd Hin).
      rewrite map_map. simpl. rewrite map_id.
      split; [assumption|]. split.
      * apply map_ext. intros k. rewrite groupMembers_app.
        destruct (Key_eqb (primaryKey x) k); [reflexivity|now rewrite app_nil_r].
      * intros k. rewrite Hkeys. split.
        -- intros (it & Hit & Hk). exists it. split; [apply in_or_app; now left|exact Hk].
        -- intros (it & Hit & Hk). apply in_app_or in Hit.
           destruct Hit as [Hit|[<-|[]]].
           ++ exists it. auto.
           ++ apply Hkeys. subst k. exact Hin.
    + rewrite (groupPush_new _ _ _ Hnin).
      rewrite map_app. simpl. fold keys.
      split; [|split].
      * apply NoDup_app; [assumption|constructor; [intros []|constructor]|].
        intros a Ha [<-|[]]. contradiction.
      * rewrite Hshape at 1. rewrite map_app. simpl. f_equal.
        -- apply map_ext_in. intros k Hk. rewrite groupMembers_app.
           assert (Hne : Key_eqb (primaryKey x) k = false).
           { apply Key_eqb_neq. intros E. subst k. contradiction. }
           now rewrite Hne, app_nil_r.
        -- rewrite groupMembers_app, Key_eqb_refl.
           assert (Hempty : groupMembers (primaryKey x) l = []).
           { unfold groupMembers. apply filter_nil_iff. intros it Hit.
             apply Key_eqb_neq. intros E. apply Hnin. apply Hkeys. exists it. auto. }
           now rewrite Hempty.
      * intros k. rewrite in_app_iff, Hkeys. simpl. split.
        -- intros [(it & Hit & Hk)|[<-|[]]].
           ++ exists it. split; [apply in_or_app; now left|exact Hk].
           ++ exists x. split; [apply in_or_app; right; now left|reflexivity].
        -- intros (it & Hit & Hk). apply in_app_or in Hit.
           destruct Hit as [Hit|[<-|[]]].
           ++ left. exists it. auto.
           ++ right. left. exact Hk.
Qed.

Lemma contactGroupsOf_members (contacts : list Item) (k : Key) (g : list Item) :
  In (k, g) (contactGroupsOf contacts) ->
  g = groupMembers k contacts /\ In k (map fst (contactGroupsOf contacts)).
Proof.
  destruct (contactGroupsOf_shape contacts) as (_ & Hshape & _).
  intros Hin. split.
  - rewrite Hshape in Hin. apply in_map_iff in Hin.
    destruct Hin as (k' & E & _). inversion E; subst. reflexivity.
  - apply in_map_iff. exists (k, g). auto.
Qed.

Lemma groupPush_Permutation (k : Key) (it : Item) (groups : list (Key * list Item)) :
  Permutation (List.concat (map snd (groupPush k it groups)))
    (it :: List.concat (map snd groups)).
Proof.
  induction groups as [|[k1 g1] r IH]; simpl.
  - apply Permutation_refl.
  - destruct (Key_eqb k k1); simpl.
    + rewrite <- app_assoc. simpl. apply Permutation_sym, Permutation_middle.
    + apply perm_trans with (g1 ++ it :: List.concat (map snd r)).
      * apply Permutation_app_head, IH.
      * apply Permutation_sym, Permutation_middle.
Qed.

(** X7: the groups built at lines 125-133 partition the contacts by
    primary key.  No key appears twice; the group stored under a key is
    exactly the contacts of that key, in their order in the input, and is
    never empty; every contact lies in the group of its key; and the
    groups together hold every contact exactly as often as the input. *)
Theorem contactGroups_partition_the_contacts (contacts : list Item) :
  NoDup (map fst (contactGroupsOf contacts))
  /\ (forall k g, In (k, g) (contactGroupsOf contacts) ->
                  g = groupMembers k contacts /\ g <> [])
  /\ (forall it, In it contacts ->
                 In (primaryKey it, groupMembers (primaryKey it) contacts)
                   (contactGroupsOf contacts)
                 /\ In it (groupMembers (primaryKey it) contacts))
  /\ Permutation (List.concat (map snd (contactGroupsOf contacts))) contacts.
Proof.
  destruct (contactGroupsOf_shape contacts) as (Hnd & Hshape & Hkeys).
  split; [assumption|]. split; [|split].
  - intros k g Hin. rewrite Hshape in Hin. apply in_map_iff in Hin.
    destruct Hin as (k' & E & Hk'). inversion E; subst. split; [reflexivity|].
    apply Hkeys in Hk'. destruct Hk' as (it & Hit & Hk).
    intros Hempty.
    assert (Hmem : In it (groupMembers k contacts)).
    { unfold groupMembers. apply filter_In. split; [assumption|]. now apply Key_eqb_eq. }
    rewrite Hempty in Hmem. contradiction.
  - intros it Hit. split.
    + rewrite Hshape. apply in_map_iff. exists (primaryKey it). split; [reflexivity|].
      apply Hkeys. exists it. auto.
    + unfold groupMembers. apply filter_In. split; [assumption|apply Key_eqb_refl].
  - clear. induction contacts as [|x l IH] using rev_ind.
    + apply Permutation_refl.
    + rewrite contactGroupsOf_app.
      apply perm_trans with (x :: List.concat (map snd (contactGroupsOf l))).
      * apply groupPush_Permutation.
      * apply perm_trans with (x :: l); [apply perm_skip, IH|].
        apply Permutation_cons_append.
Qed.

Lemma NoDup_all_equal_short {A : Type} (l : list A) :
  NoDup l -> (forall a b, In a l -> In b l -> a = b) -> (List.length l <= 1)%nat.
Proof.
  intros Hnd Hall. destruct l as [|a [|b r]]; simpl; try lia.
  exfalso. inversion Hnd as [|? ? Hn _]; subst. apply Hn.
  rewrite (Hall a b); [now left|now left|right; now left].
Qed.

Lemma contactGroupsOf_single (contacts : list Item) :
  (forall a b, In a contacts -> In b contacts -> primaryKey a = primaryKey b) ->
  (1 <? List.length (contactGroupsOf contacts))%nat = false.
Proof.
  intros Hsame.
  destruct (contactGroupsOf_shape contacts) as (Hnd & _ & Hkeys).
  apply Nat.ltb_ge. rewrite <- (length_map fst).
  apply NoDup_all_equal_short; [assumption|].
  intros a b Ha Hb. apply Hkeys in Ha, Hb.
  destruct Ha as (ia & Hia & <-), Hb as (ib & Hib & <-). now apply Hsame.
Qed.

(** X8: when all contacts handed to the merge step have the same primary
    key (one cluster, or no contact at all), it returns them as they are:
    nothing is sent to the store, which is left untouched down to its
    count of statements, and this on a failing store as well. *)
Theorem single_cluster_is_returned_untouched
    (contacts : list Item) (mail phone : option string) (w : World) :
  (forall a b, In a contacts -> In b contacts -> primaryKey a = primaryKey b) ->
  handleContactChainMerging contacts mail phone w = (w, Ok contacts).
Proof.
  intros Hsame. unfold handleContactChainMerging.
  rewrite (contactGroupsOf_single contacts Hsame). reflexivity.
Qed.

(** Witness for X8: the merged table of the sample, one cluster under
    contact 1, on a store about to fail. *)
Lemma single_cluster_is_returned_untouched_witness :
  handleContactChainMerging (map Row mergedTable) None None
    (mkWorld mergedTable 5 200 None (Some 0%nat) 0)
  = (mkWorld mergedTable 5 200 None (Some 0%nat) 0, Ok (map Row mergedTable)).
Proof.
  apply (single_cluster_is_returned_untouched (map Row mergedTable) None None).
  simpl. intros a b Ha Hb.
  repeat (destruct Ha as [<-|Ha]; [repeat (destruct Hb as [<-|Hb]; [reflexivity|]);
                                   contradiction|]).
  contradiction.
Defined.

Lemma findPrimary_none (contacts : list Item) :
  findPrimary contacts = None
  <-> forall c, In (Row c) contacts -> isPrimary c = false.
Proof.
  induction contacts as [|[c|arr] r IH]; simpl.
  - split; [intros _ c []|reflexivity].
  - destruct (isPrimary c) eqn:Ep.
    + split; [discriminate|]. intros H. specialize (H c (or_introl eq_refl)). congruence.
    + rewrite IH. split.
      * intros H c' [E|Hc']; [inversion E; now subst|auto].
      * intros H c' Hc'. apply H. now right.
  - rewrite IH. split.
    + intros H c' [E|Hc']; [discriminate|auto].
    + intros H c' Hc'. apply H. now right.
Qed.

Lemma findPrimary_some (contacts : list Item) (p : Contact) :
  findPrimary contacts = Some p -> In (Row p) contacts /\ isPrimary p = true.
Proof.
  induction contacts as [|[c|arr] r IH]; simpl; intros H.
  - discriminate.
  - destruct (isPrimary c) eqn:Ep.
    + inversion H; subst. split; [now left|assumption].
    + destruct (IH H). split; [now right|assumption].
  - destruct (IH H). split; [now right|assumption].
Qed.

Lemma groupPrimaries_none (groups : list (Key * list Item)) :
  (forall g, In g groups -> findPrimary (snd g) = None) ->
  groupPrimaries groups = [].
Proof.
  unfold groupPrimaries. induction groups as [|g gs IH]; intros Hall; [reflexivity|].
  simpl. rewrite (Hall g (or_introl eq_refl)). apply IH.
  intros g' Hg'. apply Hall. now right.
Qed.

(** X9: when the contacts handed to the merge step fall into two or more
    groups and none of them is a primary row, no surviving primary is
    found: the step throws the TypeError of reading [oldestPrimary.id]
    before anything is sent to the store. *)
Theorem merge_without_any_primary_throws
    (contacts : list Item) (mail phone : option string) (w : World) :
  (1 < List.length (contactGroupsOf contacts))%nat ->
  (forall c, In (Row c) contacts -> isPrimary c = false) ->
  handleContactChainMerging contacts mail phone w = (w, Err TypeError).
Proof.
  intros Hlen Hnone. unfold handleContactChainMerging.
  apply Nat.ltb_lt in Hlen. rewrite Hlen.
  assert (E : oldestGroupPrimary (contactGroupsOf contacts) = None).
  { rewrite oldestGroupPrimary_head. unfold groupPrimaries.
    assert (Hall : forall g, In g (contactGroupsOf contacts) -> findPrimary (snd g) = None).
    { intros [k g] Hg. simpl. apply findPrimary_none. intros c Hc. apply Hnone.
      destruct (contactGroupsOf_members contacts k g Hg) as [-> _].
      unfold groupMembers in Hc. apply filter_In in Hc. tauto. }
    fold (groupPrimaries (contactGroupsOf contacts)).
    now rewrite (groupPrimaries_none _ Hall). }
  rewrite E. reflexivity.
Qed.

(** Witness for X9: two secondaries of different primaries. *)
Lemma merge_without_any_primary_throws_witness :
  handleContactChainMerging [Row sampleB2; Row bridgingSecondary] None None twoClusters
  = (twoClusters, Err TypeError).
Proof.
  apply (merge_without_any_primary_throws [Row sampleB2; Row bridgingSecondary] None None).
  - vm_compute. lia.
  - intros c [E|[E|[]]]; inversion E; reflexivity.
Defined.

(* ================================================================= *)
(** ** Further properties: the merge of several groups *)

Lemma mergeRow_cons (q t : Z) (k : Key) (ks : list Key) (c : Contact) :
  mergeRow q t (k :: ks) c
  = mergeRow q t ks (if keyDiffers k q then convertRow k q t c else c).
Proof. reflexivity. Qed.

Lemma mergedRows_map (q t : Z) (keys : list Key) (table : list Contact) :
  mergedRows q t keys table = map (mergeRow q t keys) table.
Proof.
  revert table. induction keys as [|k ks IH]; intros table.
  - simpl. now rewrite map_id.
  - unfold mergedRows in *. simpl. rewrite IH.
    destruct (keyDiffers k q) eqn:E.
    + rewrite convertRows_map, map_map. apply map_ext. intros c.
      rewrite mergeRow_cons, E. reflexivity.
    + apply map_ext. intros c. rewrite mergeRow_cons, E. reflexivity.
Qed.

(** What one turn of the loop can do to a row. *)
Lemma mergeStep_cases (q t : Z) (k : Key) (c : Contact) :
  let r := if keyDiffers k q then convertRow k q t c else c in
  r = c
  \/ (exists kz, k = KNum kz /\ kz <> q /\ id c = kz
                 /\ r = demote (Some q) secondary t c)
  \/ (exists kz, k = KNum kz /\ kz <> q /\ id c <> kz /\ linkedId c = Some kz
                 /\ r = repoint (Some q) t c).
Proof.
  simpl. destruct (keyDiffers k q) eqn:E; [|now left].
  destruct k as [kz| |]; try (left; now apply convertRow_without_key).
  simpl in E. apply negb_true_iff, Z.eqb_neq in E.
  destruct (convertRow_cases kz q t c E) as [[Hid ->]|[(Hid & Hl & ->)|(_ & _ & ->)]].
  - right. left. exists kz. auto.
  - right. right. exists kz. auto.
  - now left.
Qed.

Lemma mergeRow_keeps_identity (q t : Z) (keys : list Key) (c : Contact) :
  id (mergeRow q t keys c) = id c
  /\ email (mergeRow q t keys c) = email c
  /\ phoneNumber (mergeRow q t keys c) = phoneNumber c
  /\ createdAt (mergeRow q t keys c) = createdAt c
  /\ deletedAt (mergeRow q t keys c) = deletedAt c.
Proof.
  revert c. induction keys as [|k ks IH]; intros c.
  - simpl. auto.
  - rewrite mergeRow_cons.
    destruct (IH (if keyDiffers k q then convertRow k q t c else c))
      as (H1 & H2 & H3 & H4 & H5).
    rewrite H1, H2, H3, H4, H5.
    destruct (keyDiffers k q); [apply convertRow_keeps_identity|auto].
Qed.



Lemma mergeRow_keeps_demoted (q t : Z) (keys : list Key) (c : Contact) :
  linkPrecedence c = secondary ->
  linkedId c = Some q ->
  linkPrecedence (mergeRow q t keys c) = secondary
  /\ linkedId (mergeRow q t keys c) = Some q.
Proof.
  revert c. induction keys as [|k1 ks IH]; intros c Hp Hl; [auto|].
  rewrite mergeRow_cons.
  destruct (mergeStep_cases q t k1 c)
    as [E|[(kz & _ & _ & _ & E)|(kz & _ & _ & _ & _ & E)]];
    rewrite E; apply IH; simpl; auto.
Qed.

Lemma mergeRow_demotes_group_primary (q t k : Z) (keys : list Key) (c : Contact) :
  k <> q ->
  In (KNum k) keys ->
  id c = k ->
  linkPrecedence (mergeRow q t keys c) = secondary
  /\ linkedId (mergeRow q t keys c) = Some q.
Proof.
  intros Hne. revert c. induction keys as [|k1 ks IH]; intros c Hin Hid; [contradiction|].
  rewrite mergeRow_cons. destruct Hin as [->|Hin].
  - simpl. apply Z.eqb_neq in Hne as Hb. rewrite Hb. simpl.
    rewrite (convertRow_demoted k q t c Hne Hid).
    apply mergeRow_keeps_demoted; reflexivity.
  - apply IH; [assumption|].
    destruct (keyDiffers k1 q); [|assumption].
    rewrite (proj1 (convertRow_keeps_identity k1 q t c)). exact Hid.
Qed.

Lemma mergeRow_untouched (q t : Z) (keys : list Key) (c : Contact) :
  (forall k, In (KNum k) keys -> k <> q -> id c <> k /\ linkedId c <> Some k) ->
  mergeRow q t keys c = c.
Proof.
  induction keys as [|k1 ks IH]; intros H; [reflexivity|].
  rewrite mergeRow_cons.
  assert (E : (if keyDiffers k1 q then convertRow k1 q t c else c) = c).
  { destruct (mergeStep_cases q t k1 c)
      as [E|[(kz & -> & Hq & Hid & _)|(kz & -> & Hq & _ & Hl & _)]]; [exact E| |];
      destruct (H kz (or_introl eq_refl) Hq); contradiction. }
  rewrite E. apply IH. intros k Hk. apply H. now right.
Qed.


Lemma mergeRow_keeps_primaries_unlinked (q t : Z) (keys : list Key) (c : Contact) :
  primaryUnlinked c -> primaryUnlinked (mergeRow q t keys c).
Proof.
  revert c. induction keys as [|k1 ks IH]; intros c H; [exact H|].
  rewrite mergeRow_cons. apply IH.
  destruct (mergeStep_cases q t k1 c)
    as [E|[(kz & _ & _ & _ & E)|(kz & _ & _ & _ & Hl & E)]]; rewrite E.
  - exact H.
  - intros Hp. discriminate Hp.
  - intros Hp. unfold isPrimary in Hp. simpl in Hp.
    assert (linkedId c = None) by (apply H; exact Hp). congruence.
Qed.

Lemma mergeGroup_healthy (q : Z) (k : Key) (g : list Item) (w : World) :
  faults w = None ->
  txn w = None ->
  exists g',
    mergeGroup q (k, g) w
    = ((if keyDiffers k q
        then mkWorld (convertRows k q (now w) (rows w)) (nextId w) (now w) None None
               (4 + issued w)
        else w),
       Ok g').
Proof.
  intros Hf Ht. unfold mergeGroup. destruct (keyDiffers k q).
  - unfold bind. rewrite (convertPrimaryToSecondary_healthy k q w Hf Ht).
    eexists. reflexivity.
  - eexists. reflexivity.
Qed.

Lemma merge_loop_healthy (q : Z) (groups : list (Key * list Item)) (w : World) :
  faults w = None ->
  txn w = None ->
  exists n l,
    forEachM (mergeGroup q) groups w
    = (mkWorld (mergedRows q (now w) (map fst groups) (rows w)) (nextId w) (now w)
         None None n,
       Ok l).
Proof.
  revert w. induction groups as [|[k g] gs IH]; intros w Hf Ht.
  - exists (issued w), []. destruct w as [r nid t tx f i]. simpl in *. now subst.
  - cbn [forEachM]. unfold bind at 1.
    destruct (mergeGroup_healthy q k g w Hf Ht) as (g' & ->).
    assert (Hm : forall table,
               mergedRows q (now w) (map fst ((k, g) :: gs)) table
               = mergedRows q (now w) (map fst gs)
                   (if keyDiffers k q then convertRows k q (now w) table else table))
      by reflexivity.
    rewrite Hm.
    destruct (keyDiffers k q).
    + destruct (IH (mkWorld (convertRows k q (now w) (rows w)) (nextId w) (now w)
                      None None (4 + issued w)) eq_refl eq_refl) as (n & l & Hrun).
      unfold bind. rewrite Hrun. exists n. eexists. reflexivity.
    + destruct (IH w Hf Ht) as (n & l & Hrun).
      unfold bind. rewrite Hrun. exists n. eexists. reflexivity.
Qed.

Lemma getAllLinkedContactsById_healthy (primaryId : Z) (w : World) :
  faults w = None ->
  getAllLinkedContactsById primaryId w
  = (sent w, Ok (selectRows [IdEq 1; LinkedIdEq 1] [VNum primaryId] (rows w))).
Proof.
  intros Hf. unfold getAllLinkedContactsById.
  rewrite query_healthy by (auto; reflexivity). reflexivity.
Qed.

Lemma cluster_by_id_In (primaryId : Z) (table : list Contact) (c : Contact) :
  In c (selectRows [IdEq 1; LinkedIdEq 1] [VNum primaryId] table)
  <-> In c table /\ deletedAt c = None
      /\ (id c = primaryId \/ linkedId c = Some primaryId).
Proof.
  unfold selectRows. rewrite sortByCreatedAt_In, filter_In, andb_true_iff, notDeleted_true.
  simpl. unfold param. simpl. rewrite orb_false_r, orb_true_iff, Z.eqb_eq.
  rewrite sqlEqNum_true. split.
  - intros (Hc & [Hid|(v & H1 & H2)] & Hd); (split; [assumption|]); (split; [assumption|]).
    + now left.
    + right. congruence.
  - intros (Hc & Hd & [Hid|Hl]); (split; [assumption|]); (split; [|assumption]).
    + now left.
    + right. exists primaryId. auto.
Qed.




Lemma handleContactChainMerging_healthy
    (contacts : list Item) (mail phone : option string) (w : World) (oldest : Contact) :
  faults w = None ->
  txn w = None ->
  (1 < List.length (contactGroupsOf contacts))%nat ->
  oldestGroupPrimary (contactGroupsOf contacts) = Some oldest ->
  exists n,
    handleContactChainMerging contacts mail phone w
    = (let merged := map (mergeRow (id oldest) (now w)
                            (map fst (contactGroupsOf contacts))) (rows w) in
       (mkWorld merged (nextId w) (now w) None None n,
        Ok (map Row (selectRows [IdEq 1; LinkedIdEq 1] [VNum (id oldest)] merged)))).
Proof.
  intros Hf Ht Hlen Hold.
  destruct (merge_loop_healthy (id oldest) (contactGroupsOf contacts) w Hf Ht)
    as (n & l & Hloop).
  exists (S n). unfold handleContactChainMerging.
  apply Nat.ltb_lt in Hlen. rewrite Hlen, Hold.
  unfold bind at 1. unfold bind at 1. rewrite Hloop.
  unfold bind. rewrite getAllLinkedContactsById_healthy by reflexivity.
  cbn [rows sent nextId now txn faults issued]. rewrite mergedRows_map. reflexivity.
Qed.

Lemma In_definedOnly {A : Type} (a : A) (l : list (option A)) :
  In a (definedOnly l) <-> In (Some a) l.
Proof.
  induction l as [|[b|] r IH]; simpl.
  - reflexivity.
  - rewrite IH. split; intros [H|H]; auto; [left; congruence|left; congruence].
  - rewrite IH. split; [auto|]. intros [H|H]; [discriminate|assumption].
Qed.

Lemma oldestGroupPrimary_is_primary (groups : list (Key * list Item)) (p : Contact) :
  oldestGroupPrimary groups = Some p ->
  isPrimary p = true /\ exists g, In g groups /\ In (Row p) (snd g).
Proof.
  intros H. rewrite oldestGroupPrimary_head in H.
  assert (Hin : In p (groupPrimaries groups)).
  { apply sortByCreatedAt_In.
    destruct (sortByCreatedAt (groupPrimaries groups)); [discriminate|].
    inversion H. now left. }
  unfold groupPrimaries in Hin. apply In_definedOnly, in_map_iff in Hin.
  destruct Hin as (g & Hg & Hgin). apply findPrimary_some in Hg.
  destruct Hg as [Hrow Hp]. split; [assumption|]. exists g. auto.
Qed.

Lemma NoDup_ids_injective (table : list Contact) (a b : Contact) :
  NoDup (map id table) -> In a table -> In b table -> id a = id b -> a = b.
Proof.
  induction table as [|c r IH]; intros Hnd Ha Hb E; [contradiction|].
  simpl in Hnd. inversion Hnd as [|? ? Hn Hr]; subst.
  destruct Ha as [->|Ha], Hb as [->|Hb].
  - reflexivity.
  - exfalso. apply Hn. rewrite E. now apply in_map.
  - exfalso. apply Hn. rewrite <- E. now apply in_map.
  - now apply IH.
Qed.

Lemma In_Row_map (c : Contact) (l : list Contact) : In (Row c) (map Row l) <-> In c l.
Proof.
  rewrite in_map_iff. split.
  - intros (c' & E & H). inversion E. now subst.
  - intros H. exists c. auto.
Qed.

(** X11: the cluster a merge returns is flat and stable.  Suppose the
    store is healthy, its ids are unique, its primaries carry no link,
    and the primary selected by the merge is a non-deleted row of the
    table.  Then the list returned by a merge of two or more groups holds
    that primary, and every other member is a secondary pointing directly
    at it; handing the list to the merge step again, on the store the
    merge left, returns it unchanged without sending anything; and the
    response built from it names that primary and lists the id of every
    other member as secondary. *)
Theorem merged_cluster_is_flat_and_stable
    (contacts : list Item) (mail phone : option string) (w w' : World)
    (oldest : Contact) (final : list Item) :
  faults w = None ->
  txn w = None ->
  (1 < List.length (contactGroupsOf contacts))%nat ->
  oldestGroupPrimary (contactGroupsOf contacts) = Some oldest ->
  In oldest (rows w) ->
  deletedAt oldest = None ->
  NoDup (map id (rows w)) ->
  (forall c, In c (rows w) -> primaryUnlinked c) ->
  handleContactChainMerging contacts mail phone w = (w', Ok final) ->
  In (Row oldest) final
  /\ (forall it, In it final ->
        exists c, it = Row c
                  /\ (c = oldest
                      \/ (linkPrecedence c = secondary /\ linkedId c = Some (id oldest))))
  /\ handleContactChainMerging final mail phone w' = (w', Ok final)
  /\ exists r,
       buildResponse final = Ok r
       /\ primaryContatctId r = id oldest
       /\ (forall c, In (Row c) final -> c <> oldest -> In (id c) (secondaryContactIds r)).
Proof.
  intros Hf Ht Hlen Hold Hin Hdel Hnd Hwf Hrun.
  destruct (handleContactChainMerging_healthy contacts mail phone w oldest Hf Ht Hlen Hold)
    as (n & E).
  rewrite E in Hrun. cbv zeta in Hrun. inversion Hrun; subst w' final. clear Hrun E.
  set (q := id oldest). set (keys := map fst (contactGroupsOf contacts)).
  set (merged := map (mergeRow q (now w) keys) (rows w)).
  set (sel := selectRows [IdEq 1; LinkedIdEq 1] [VNum q] merged).
  destruct (oldestGroupPrimary_is_primary _ _ Hold) as [Hp _].
  assert (Hself : mergeRow q (now w) keys oldest = oldest).
  { apply mergeRow_untouched. intros k _ Hne. split; [exact (not_eq_sym Hne)|].
    rewrite (Hwf oldest Hin Hp). discriminate. }
  assert (HinS : In oldest sel).
  { apply cluster_by_id_In. split; [|split; [assumption|now left]].
    apply in_map_iff. exists oldest. auto. }
  assert (Hmember : forall c, In c sel ->
             c = oldest \/ (linkPrecedence c = secondary /\ linkedId c = Some q)).
  { intros c Hc. apply cluster_by_id_In in Hc. destruct Hc as (Hc & _ & Hlink).
    apply in_map_iff in Hc. destruct Hc as (c0 & Ec & Hc0).
    assert (Hback : id c = q -> c = oldest).
    { intros Hid. rewrite <- Ec in Hid.
      rewrite (proj1 (mergeRow_keeps_identity q (now w) keys c0)) in Hid.
      assert (c0 = oldest) by (apply (NoDup_ids_injective (rows w)); assumption).
      subst c0. congruence. }
    assert (Hunl : primaryUnlinked c).
    { rewrite <- Ec. apply mergeRow_keeps_primaries_unlinked, Hwf, Hc0. }
    destruct (isPrimary c) eqn:Ep.
    - left. apply Hback. destruct Hlink as [Hid|Hl]; [exact Hid|].
      rewrite (Hunl Ep) in Hl. discriminate.
    - destruct Hlink as [Hid|Hl]; [left; now apply Hback|].
      right. split; [|exact Hl].
      unfold isPrimary in Ep. destruct (linkPrecedence c); [discriminate|reflexivity]. }
  assert (Hkey : forall c, In c sel -> primaryKey (Row c) = KNum q).
  { intros c Hc. simpl. destruct (Hmember c Hc) as [->|[Hs Hl]].
    - now rewrite Hp.
    - unfold isPrimary. rewrite Hs, Hl. reflexivity. }
  split; [now apply In_Row_map|]. split; [|split].
  - intros it Hit. apply in_map_iff in Hit. destruct Hit as (c & <- & Hc).
    exists c. split; [reflexivity|now apply Hmember].
  - unfold handleContactChainMerging. rewrite contactGroupsOf_single; [reflexivity|].
    intros a b Ha Hb. apply in_map_iff in Ha, Hb.
    destruct Ha as (ca & <- & Hca), Hb as (cb & <- & Hcb).
    now rewrite (Hkey ca Hca), (Hkey cb Hcb).
  - unfold buildResponse.
    destruct (findPrimary (map Row sel)) as [p'|] eqn:Efp.
    + destruct (findPrimary_some _ _ Efp) as [Hp'in Hp'].
      apply In_Row_map in Hp'in.
      assert (p' = oldest) as ->.
      { destruct (Hmember p' Hp'in) as [->|[Hs _]]; [reflexivity|].
        unfold isPrimary in Hp'. rewrite Hs in Hp'. discriminate. }
      eexists. split; [reflexivity|]. split; [reflexivity|].
      simpl. intros c Hc Hne. apply In_Row_map in Hc.
      rewrite secondariesOf_rows. apply in_map, filter_In. split; [assumption|].
      destruct (Hmember c Hc) as [->|[Hs _]]; [contradiction|].
      unfold isSecondary. now rewrite Hs.
    + exfalso. rewrite findPrimary_none in Efp.
      specialize (Efp oldest (proj2 (In_Row_map oldest sel) HinS)). congruence.
Qed.

(** Witness for X11: clusters A and B of the sample, merged under contact 1. *)
Lemma merged_cluster_is_flat_and_stable_witness :
  exists w' final,
    handleContactChainMerging (map Row [sampleA1; sampleB1; sampleB2]) None None twoClusters
    = (w', Ok final)
    /\ handleContactChainMerging final None None w' = (w', Ok final)
    /\ exists r, buildResponse final = Ok r /\ primaryContatctId r = 1.
Proof.
  destruct (handleContactChainMerging (map Row [sampleA1; sampleB1; sampleB2]) None None
              twoClusters) as [w' [final|e]] eqn:Erun;
    [|vm_compute in Erun; discriminate Erun].
  exists w', final. split; [reflexivity|].
  assert (Hlen : (1 < List.length (contactGroupsOf (map Row [sampleA1; sampleB1; sampleB2])))%nat)
    by (vm_compute; lia).
  assert (Hold : oldestGroupPrimary (contactGroupsOf (map Row [sampleA1; sampleB1; sampleB2]))
                 = Some sampleA1) by (vm_compute; reflexivity).
  assert (Hnd : NoDup (map id (rows twoClusters))).
  { simpl. repeat constructor; simpl; intuition lia. }
  assert (Hwf : forall c, In c (rows twoClusters) -> primaryUnlinked c).
  { simpl. intros c [<-|[<-|[<-|[]]]] Hp; try reflexivity; discriminate Hp. }
  destruct (merged_cluster_is_flat_and_stable
              (map Row [sampleA1; sampleB1; sampleB2]) None None twoClusters w' sampleA1 final
              eq_refl eq_refl Hlen Hold (or_introl eq_refl) eq_refl Hnd Hwf Erun)
    as (_ & _ & Hstable & r & Hr & Hid & _).
  split; [exact Hstable|]. exists r. split; [exact Hr|exact Hid].
Defined.

(* ================================================================= *)
(** ** Further properties: a store that fails during a merge *)

(** A demotion on a store that will fail after [m] more statements. *)
Lemma convertPrimaryToSecondary_budget (k : Key) (q : Z) (w : World) (m : nat) :
  txn w = None ->
  faults w = Some m ->
  ((4 <= m)%nat ->
   convertPrimaryToSecondary k q w
   = (mkWorld (convertRows k q (now w) (rows w)) (nextId w) (now w) None
        (Some (m - 4)%nat) (4 + issued w),
      Ok tt))
  /\ ((m < 4)%nat ->
      exists i,
        convertPrimaryToSecondary k q w
        = (mkWorld (rows w) (nextId w) (now w) None None i, Err StoreError)).
Proof.
  intros Ht Hf. destruct w as [r nid t tx f i]. simpl in Ht, Hf. subst tx f.
  unfold convertPrimaryToSecondary, tryCatchRethrow, bind, query, statement, convertRows.
  destruct m as [|[|[|[|m]]]]; simpl; unfold param; simpl; rewrite ?asNum_keyParam;
    (split; intros H; [try lia|try lia]);
    try (eexists; reflexivity).
  rewrite Nat.sub_0_r. reflexivity.
Qed.

(** X18: a demotion is all or nothing.  Started with no transaction
    open, [convertPrimaryToSecondary] that returns an error returns the
    store's error, has closed its transaction and has left the table and
    the id sequence as they were; one that returns has applied the
    complete demotion to every row; and on a store that fails after [m]
    more statements it returns the error exactly when the failure falls
    on one of its four statements (BEGIN, the two UPDATEs, COMMIT). *)
Theorem demotion_is_all_or_nothing (k : Key) (newPrimaryId : Z) (w : World) :
  txn w = None ->
  (forall w' e, convertPrimaryToSecondary k newPrimaryId w = (w', Err e) ->
      e = StoreError /\ rows w' = rows w /\ nextId w' = nextId w /\ txn w' = None)
  /\ (forall w' u, convertPrimaryToSecondary k newPrimaryId w = (w', Ok u) ->
      Permutation (rows w') (map (convertRow k newPrimaryId (now w)) (rows w))
      /\ nextId w' = nextId w /\ txn w' = None)
  /\ (forall m, faults w = Some m ->
        ((m < 4)%nat
         <-> exists w', convertPrimaryToSecondary k newPrimaryId w = (w', Err StoreError))).
Proof.
  intros Ht.
  assert (Hcases :
    (exists i, convertPrimaryToSecondary k newPrimaryId w
               = (mkWorld (rows w) (nextId w) (now w) None None i, Err StoreError)
               /\ exists m, faults w = Some m /\ (m < 4)%nat)
    \/ (exists f i, convertPrimaryToSecondary k newPrimaryId w
                    = (mkWorld (convertRows k newPrimaryId (now w) (rows w)) (nextId w)
                         (now w) None f i, Ok tt)
                    /\ forall m, faults w = Some m -> (4 <= m)%nat)).
  { destruct (faults w) as [m|] eqn:Hf.
    - destruct (convertPrimaryToSecondary_budget k newPrimaryId w m Ht Hf) as [Hok Herr].
      destruct (Nat.lt_ge_cases m 4) as [Hlt|Hge].
      + left. destruct (Herr Hlt) as (i & E). exists i. split; [exact E|]. exists m. auto.
      + right. do 2 eexists. split; [exact (Hok Hge)|]. intros m' Hm'. congruence.
    - right. do 2 eexists. split.
      + apply convertPrimaryToSecondary_healthy; assumption.
      + intros m' Hm'. discriminate. }
  split; [|split].
  - intros w' e E. destruct Hcases as [(i & E' & _)|(f & i & E' & _)];
      rewrite E' in E; inversion E; subst; simpl; auto.
  - intros w' u E. destruct Hcases as [(i & E' & _)|(f & i & E' & _)];
      rewrite E' in E; inversion E; subst; simpl.
    rewrite convertRows_map. auto using Permutation_refl.
  - intros m Hm. split.
    + intros Hlt.
      destruct (convertPrimaryToSecondary_budget k newPrimaryId w m Ht Hm) as [_ Herr].
      destruct (Herr Hlt) as (i & E). eexists. exact E.
    + intros (w' & E). destruct Hcases as [(i & _ & m' & Hm' & Hlt)|(f & i & E' & _)].
      * congruence.
      * rewrite E' in E. discriminate E.
Qed.

(** Witness for X18: demoting contact 2 of the three primaries on a
    store that fails at its sixth statement, and on one that fails at its
    second. *)
Lemma demotion_is_all_or_nothing_witness :
  (exists w', convertPrimaryToSecondary (KNum 2) 1 failingSixth = (w', Ok tt)
              /\ Permutation (rows w')
                   (map (convertRow (KNum 2) 1 100) threePrimaries))
  /\ (exists w', convertPrimaryToSecondary (KNum 2) 1
                   (mkWorld threePrimaries 5 100 None (Some 1%nat) 0)
                 = (w', Err StoreError)
                 /\ rows w' = threePrimaries).
Proof.
  split.
  - destruct (demotion_is_all_or_nothing (KNum 2) 1 failingSixth eq_refl) as (_ & Hok & _).
    assert (E : convertPrimaryToSecondary (KNum 2) 1 failingSixth
                = (mkWorld
                     [sampleA1;
                      mkContact 2 (Some "222"%string) (Some "b@x.io"%string) (Some 1)
                        secondary 20 100 None;
                      sampleC1]
                     5 100 None (Some 1%nat) 4, Ok tt)) by (vm_compute; reflexivity).
    eexists. split; [exact E|]. apply (Hok _ _ E).
  - destruct (demotion_is_all_or_nothing (KNum 2) 1
                (mkWorld threePrimaries 5 100 None (Some 1%nat) 0) eq_refl)
      as (Herr & _ & Hfail).
    assert (Hlt : (1 < 4)%nat) by lia.
    destruct (proj1 (Hfail 1%nat eq_refl) Hlt) as (w' & E).
    exists w'. split; [exact E|]. apply (Herr _ _ E).
Defined.

Lemma demotedKeys_cons (q : Z) (k : Key) (g : list Item) (gs : list (Key * list Item)) :
  demotedKeys q ((k, g) :: gs)
  = if keyDiffers k q then k :: demotedKeys q gs else demotedKeys q gs.
Proof. reflexivity. Qed.

Lemma mergedRows_cons_differs (q t : Z) (k : Key) (ks : list Key) (table : list Contact) :
  keyDiffers k q = true ->
  mergedRows q t (k :: ks) table = mergedRows q t ks (convertRows k q t table).
Proof.
  intros E. unfold mergedRows. simpl. now rewrite E.
Qed.

Lemma mergeGroup_pair (q : Z) (k : Key) (g : list Item) :
  mergeGroup q (k, g)
  = if keyDiffers k q
    then convertPrimaryToSecondary k q ;;; ret (k, map (patchInMemory q) g)
    else ret (k, g).
Proof. reflexivity. Qed.

(** The loop of lines 145-159 on a store that fails inside it: the
    demotions completed before the failure stay. *)
Lemma merge_loop_budget (q : Z) (groups : list (Key * list Item)) (w : World) (m : nat) :
  txn w = None ->
  faults w = Some m ->
  (m < 4 * List.length (demotedKeys q groups))%nat ->
  exists i,
    forEachM (mergeGroup q) groups w
    = (mkWorld (mergedRows q (now w) (firstn (m / 4) (demotedKeys q groups)) (rows w))
         (nextId w) (now w) None None i,
       Err StoreError).
Proof.
  revert w m. induction groups as [|[k g] gs IH]; intros w m Ht Hf Hlt.
  - simpl in Hlt. lia.
  - rewrite demotedKeys_cons in *. cbn [forEachM]. unfold bind at 1.
    rewrite (mergeGroup_pair q k g).
    destruct (keyDiffers k q) eqn:Ek.
    + destruct (convertPrimaryToSecondary_budget k q w m Ht Hf) as [Hok Herr].
      unfold bind at 1.
      destruct (Nat.lt_ge_cases m 4) as [Hsmall|Hbig].
      * destruct (Herr Hsmall) as (i & ->). exists i.
        rewrite (Nat.div_small m 4 Hsmall). reflexivity.
      * rewrite (Hok Hbig). unfold ret at 1.
        simpl in Hlt.
        destruct (IH (mkWorld (convertRows k q (now w) (rows w)) (nextId w) (now w) None
                        (Some (m - 4)%nat) (4 + issued w)) (m - 4)%nat eq_refl eq_refl)
          as (i & Hrun); [lia|].
        unfold bind. rewrite Hrun. exists i. cbn [rows nextId now].
        assert (Hdiv : (m / 4 = S ((m - 4) / 4))%nat).
        { replace m with ((m - 4) + 1 * 4)%nat at 1 by lia.
          rewrite Nat.div_add by lia. lia. }
        rewrite Hdiv. cbn [firstn].
        rewrite (mergedRows_cons_differs q (now w) k _ _ Ek). reflexivity.
    + unfold ret at 1.
      destruct (IH w m Ht Hf Hlt) as (i & Hrun).
      unfold bind. rewrite Hrun. exists i. reflexivity.
Qed.

Lemma demotedKeys_In (q : Z) (groups : list (Key * list Item)) (n : nat) (k : Z) :
  In (KNum k) (firstn n (demotedKeys q groups)) -> k <> q.
Proof.
  intros H.
  assert (Hin : In (KNum k) (demotedKeys q groups)).
  { rewrite <- (firstn_skipn n (demotedKeys q groups)). apply in_or_app. now left. }
  apply filter_In in Hin. destruct Hin as [_ Hin].
  simpl in Hin. apply negb_true_iff in Hin. now apply Z.eqb_neq.
Qed.

(** X19: the demotions of one merge are committed one by one.  When the
    merge step runs with no transaction open on a store that fails after
    [m] more statements, and the failure falls among the statements of
    its demotions, the merge returns the store's error and the table
    holds the complete demotions of the first [m / 4] demoted groups, in
    the order of the loop, and nothing of the later ones: the primaries
    of those first groups are secondaries of the selected primary, and
    every row that neither is nor points at one of them is as it was. *)
Theorem failed_merge_keeps_completed_demotions
    (contacts : list Item) (mail phone : option string) (w : World) (oldest : Contact)
    (m : nat) :
  txn w = None ->
  faults w = Some m ->
  (1 < List.length (contactGroupsOf contacts))%nat ->
  oldestGroupPrimary (contactGroupsOf contacts) = Some oldest ->
  (m < 4 * List.length (demotedKeys (id oldest) (contactGroupsOf contacts)))%nat ->
  let completed := firstn (m / 4) (demotedKeys (id oldest) (contactGroupsOf contacts)) in
  exists w',
    handleContactChainMerging contacts mail phone w = (w', Err StoreError)
    /\ nextId w' = nextId w
    /\ txn w' = None
    /\ Permutation (rows w') (map (mergeRow (id oldest) (now w) completed) (rows w))
    /\ (forall k c, In (KNum k) completed -> In c (rows w') -> id c = k ->
                    linkPrecedence c = secondary /\ linkedId c = Some (id oldest))
    /\ (forall c, In c (rows w) ->
                  (forall k, In (KNum k) completed -> id c <> k /\ linkedId c <> Some k) ->
                  In c (rows w')).
Proof.
  intros Ht Hf Hlen Hold Hlt completed.
  destruct (merge_loop_budget (id oldest) (contactGroupsOf contacts) w m Ht Hf Hlt)
    as (i & Hloop).
  eexists. split.
  { unfold handleContactChainMerging. apply Nat.ltb_lt in Hlen. rewrite Hlen, Hold.
    unfold bind at 1. unfold bind at 1. rewrite Hloop. reflexivity. }
  cbn [rows nextId txn]. fold completed. rewrite mergedRows_map.
  split; [reflexivity|]. split; [reflexivity|]. split; [apply Permutation_refl|].
  split.
  - intros k c Hk Hc Hid. apply in_map_iff in Hc. destruct Hc as (c0 & <- & _).
    pose proof (demotedKeys_In _ _ _ _ Hk) as Hne.
    apply mergeRow_demotes_group_primary with (k := k); [assumption|assumption|].
    rewrite <- Hid. symmetry. apply mergeRow_keeps_identity.
  - intros c Hc Hout. apply in_map_iff. exists c. split; [|assumption].
    apply mergeRow_untouched. intros k Hk _. now apply Hout.
Qed.

(** Witness for X19: the three primaries of the sample, merged on a store
    that fails at its sixth statement: contact 2 stays demoted, contact 4
    is still a primary. *)
Lemma failed_merge_keeps_completed_demotions_witness :
  exists w',
    handleContactChainMerging (map Row threePrimaries) None None failingSixth
    = (w', Err StoreError)
    /\ (forall c, In c (rows w') -> id c = 2 ->
                  linkPrecedence c = secondary /\ linkedId c = Some 1)
    /\ In sampleC1 (rows w').
Proof.
  assert (Hlen : (1 < List.length (contactGroupsOf (map Row threePrimaries)))%nat)
    by (vm_compute; lia).
  assert (Hold : oldestGroupPrimary (contactGroupsOf (map Row threePrimaries))
                 = Some sampleA1) by (vm_compute; reflexivity).
  assert (Hlt : (5 < 4 * List.length (demotedKeys (id sampleA1)
                                        (contactGroupsOf (map Row threePrimaries))))%nat)
    by (vm_compute; lia).
  destruct (failed_merge_keeps_completed_demotions (map Row threePrimaries) None None
              failingSixth sampleA1 5%nat eq_refl eq_refl Hlen Hold Hlt)
    as (w' & Hrun & _ & _ & _ & Hkept & Hrest).
  exists w'. split; [exact Hrun|]. split.
  - intros c Hc Hid. apply (Hkept 2 c); [|assumption|assumption].
    vm_compute. left. reflexivity.
  - apply Hrest.
    + simpl. right. right. left. reflexivity.
    + intros k Hk. vm_compute in Hk. destruct Hk as [Hk|[]].
      inversion Hk; subst. split; [simpl; lia|simpl; discriminate].
Defined.

(* ================================================================= *)
(** ** Further properties: building the response *)

Lemma findPrimary_skips_array (before after : list Item) (arr : list Contact) :
  findPrimary (before ++ RowsArray arr :: after) = findPrimary (before ++ after).
Proof.
  induction before as [|[c|a] r IH]; simpl.
  - reflexivity.
  - destruct (isPrimary c); [reflexivity|exact IH].
  - exact IH.
Qed.

Lemma secondariesOf_skips_array (before after : list Item) (arr : list Contact) :
  secondariesOf (before ++ RowsArray arr :: after) = secondariesOf (before ++ after).
Proof.
  induction before as [|[c|a] r IH]; simpl.
  - reflexivity.
  - destruct (isSecondary c); [now rewrite IH|exact IH].
  - exact IH.
Qed.

Lemma secondariesOf_In (contacts : list Item) (c : Contact) :
  In c (secondariesOf contacts) <-> In (Row c) contacts /\ isSecondary c = true.
Proof.
  induction contacts as [|[c'|a] r IH]; simpl.
  - tauto.
  - destruct (isSecondary c') eqn:Es; simpl; rewrite IH; split.
    + intros [->|[H1 H2]]; auto.
    + intros [[E|H1] H2]; [left; now inversion E|right; auto].
    + intros [H1 H2]; auto.
    + intros [[E|H1] H2]; [inversion E; subst; congruence|auto].
  - rewrite IH. split.
    + intros [H1 H2]; auto.
    + intros [[E|H1] H2]; [discriminate|auto].
Qed.

(** X12: [buildResponse] fails exactly when the list holds no primary
    row (the empty list included), and then with the TypeError of
    reading [primary.email]; it has no other error.  An array pushed into
    the list in place of a row is invisible to it.  When it succeeds, the
    primary it names is the first primary row of the list, and the
    secondary ids are the ids of the secondary rows and nothing else, so
    a second primary in the list is left out of the response. *)
Theorem buildResponse_needs_a_primary (contacts : list Item) :
  (buildResponse contacts = Err TypeError
   <-> forall c, In (Row c) contacts -> isPrimary c = false)
  /\ (forall e, buildResponse contacts = Err e -> e = TypeError)
  /\ (forall before arr after,
         contacts = before ++ RowsArray arr :: after ->
         buildResponse contacts = buildResponse (before ++ after))
  /\ (forall r, buildResponse contacts = Ok r ->
        (exists p, findPrimary contacts = Some p /\ In (Row p) contacts
                   /\ isPrimary p = true /\ primaryContatctId r = id p)
        /\ (forall s, In s (secondaryContactIds r)
                      <-> exists c, In (Row c) contacts /\ isSecondary c = true
                                    /\ id c = s)).
Proof.
  unfold buildResponse. split; [|split; [|split]].
  - rewrite <- findPrimary_none.
    destruct (findPrimary contacts); split; intros H; congruence.
  - intros e H. destruct (findPrimary contacts); congruence.
  - intros before arr after ->.
    now rewrite findPrimary_skips_array, secondariesOf_skips_array.
  - intros r H. destruct (findPrimary contacts) as [p|] eqn:Ep; [|discriminate].
    inversion H; subst r; clear H. simpl. split.
    + exists p. destruct (findPrimary_some _ _ Ep). auto.
    + intros s. rewrite in_map_iff. split.
      * intros (c & <- & Hc). apply secondariesOf_In in Hc. exists c. tauto.
      * intros (c & Hc & Hs & <-). exists c. split; [reflexivity|].
        apply secondariesOf_In. auto.
Qed.

(** Witness for X12: the cluster with the pushed array, and a list of
    secondaries only. *)
Lemma buildResponse_needs_a_primary_witness :
  buildResponse [Row sampleB2; Row bridgingSecondary] = Err TypeError
  /\ buildResponse ([Row sampleA1] ++ RowsArray [bridgingSecondary] :: [Row sampleB2])
     = buildResponse ([Row sampleA1] ++ [Row sampleB2]).
Proof.
  destruct (buildResponse_needs_a_primary [Row sampleB2; Row bridgingSecondary])
    as (Herr & _).
  destruct (buildResponse_needs_a_primary
              ([Row sampleA1] ++ RowsArray [bridgingSecondary] :: [Row sampleB2]))
    as (_ & _ & Harr & _).
  split.
  - apply Herr. intros c [E|[E|[]]]; inversion E; reflexivity.
  - apply (Harr [Row sampleA1] [bridgingSecondary] [Row sampleB2]). reflexivity.
Defined.

(* ================================================================= *)
(** ** Further properties: inserting, and the ids of the table *)

Lemma createSecondaryContact_run (mail phone : option string) (linked : Z) (w : World) :
  createSecondaryContact mail phone linked w
  = match statement w with
    | (w1, Ok _) =>
        let c := mkContact (nextId w) (orNull phone) (orNull mail) (Some linked) secondary
                   (now w) (now w) None in
        (mkWorld (rows w ++ [c]) (nextId w + 1) (now w) (txn w) (faults w1) (issued w1),
         Ok (RowsArray [c]))
    | (w1, Err e) => (w1, Err e)
    end.
Proof.
  unfold createSecondaryContact, bind, query, bind, statement.
  destruct (faults w) as [[|n]|]; simpl; unfold newRow, param; simpl;
    rewrite ?asStr_strParam; reflexivity.
Qed.

(** X13: [createSecondaryContact] inserts all or nothing.  Whatever the
    store does, either it returns an error and the table and the id
    sequence are as before, or it has appended exactly one row, a
    non-deleted secondary linked to the given id, holding the request's
    identifiers with empty strings stored as NULL, under the next id of
    the sequence, which advances by one; and what it returns is then the
    array holding that row, not the row. *)
Theorem createSecondaryContact_inserts_all_or_nothing
    (mail phone : option string) (linked : Z) (w : World) :
  match createSecondaryContact mail phone linked w with
  | (w', Ok returned) =>
      exists c,
        returned = RowsArray [c]
        /\ rows w' = rows w ++ [c]
        /\ nextId w' = nextId w + 1
        /\ c = mkContact (nextId w) (orNull phone) (orNull mail) (Some linked) secondary
                 (now w) (now w) None
  | (w', Err e) => e = StoreError /\ rows w' = rows w /\ nextId w' = nextId w
  end.
Proof.
  rewrite createSecondaryContact_run. unfold statement.
  destruct (faults w) as [[|n]|]; simpl; try (eexists; repeat split; reflexivity); auto.
Qed.

Lemma idsFresh_same_ids (w w' : World) :
  map id (rows w') = map id (rows w) ->
  nextId w' = nextId w ->
  idsFresh w -> idsFresh w'.
Proof.
  intros Hids Hn [Hnd Hlt]. split.
  - now rewrite Hids.
  - intros c Hc. rewrite Hn.
    assert (Hin : In (id c) (map id (rows w))) by (rewrite <- Hids; now apply in_map).
    apply in_map_iff in Hin. destruct Hin as (c0 & E & Hc0). rewrite <- E. now apply Hlt.
Qed.

Lemma idsFresh_append (w w' : World) (c : Contact) :
  rows w' = rows w ++ [c] ->
  nextId w' = nextId w + 1 ->
  id c = nextId w ->
  idsFresh w -> idsFresh w'.
Proof.
  intros Hr Hn Hid [Hnd Hlt]. split.
  - rewrite Hr, map_app. simpl. apply NoDup_app; [assumption| |].
    + constructor; [intros []|constructor].
    + intros a Ha [<-|[]]. apply in_map_iff in Ha. destruct Ha as (c0 & E & Hc0).
      specialize (Hlt c0 Hc0). lia.
  - intros c' Hc'. rewrite Hr in Hc'. rewrite Hn. apply in_app_or in Hc'.
    destruct Hc' as [Hc'|[<-|[]]]; [specialize (Hlt c' Hc')|]; lia.
Qed.

Lemma mergedRows_ids (q t : Z) (keys : list Key) (table : list Contact) :
  map id (mergedRows q t keys table) = map id table.
Proof.
  rewrite mergedRows_map, map_map. apply map_ext. intros c.
  apply mergeRow_keeps_identity.
Qed.

Lemma query_select_keeps_store (conditions : list Cond) (params : list SqlValue) (w : World) :
  rows (fst (query (SelectContacts conditions) params w)) = rows w
  /\ nextId (fst (query (SelectContacts conditions) params w)) = nextId w.
Proof.
  unfold query, bind. destruct (statement_keeps_rows w) as (Hr & Hn & _).
  destruct (statement w) as [w1 [[]|e]]; simpl in *; [|auto].
  repeat match goal with
         | |- context [if ?b then _ else _] => destruct b
         end; auto.
Qed.

(** X14: the ids of the table stay unique and behind the sequence.  If
    no id is stored twice and every stored id is below the next id of the
    sequence, and no transaction is open, the same holds after identify,
    after either insert, after a demotion and after the merge step,
    whatever their arguments, whether they succeed or fail and whatever
    statement the store fails on. *)
Theorem service_keeps_ids_unique (w : World) :
  idsFresh w ->
  txn w = None ->
  (forall request, idsFresh (fst (identify request w)))
  /\ (forall mail phone, idsFresh (fst (createPrimaryContact mail phone w)))
  /\ (forall mail phone linked, idsFresh (fst (createSecondaryContact mail phone linked w)))
  /\ (forall k newPrimaryId, idsFresh (fst (convertPrimaryToSecondary k newPrimaryId w)))
  /\ (forall contacts mail phone,
         idsFresh (fst (handleContactChainMerging contacts mail phone w))).
Proof.
  intros Hfresh Ht.
  destruct (statement_keeps_rows w) as (Hsr & Hsn & _).
  split; [|split; [|split; [|split]]].
  - intros request. pose proof (identify_footprint request w) as H.
    destruct (identify request w) as [w' [r|e]]; simpl.
    + destruct H as (c & Hr & Hn & Hid & _). now apply (idsFresh_append w w' c).
    + destruct H as [Hr Hn]. apply (idsFresh_same_ids w w'); [now rewrite Hr|assumption|assumption].
  - intros mail phone. rewrite createPrimaryContact_run.
    destruct (statement w) as [w1 [[]|e]]; simpl in *.
    + eapply idsFresh_append; [reflexivity|reflexivity|reflexivity|assumption].
    + apply (idsFresh_same_ids w w1); [now rewrite Hsr|assumption|assumption].
  - intros mail phone linked. rewrite createSecondaryContact_run.
    destruct (statement w) as [w1 [[]|e]]; simpl in *.
    + eapply idsFresh_append; [reflexivity|reflexivity|reflexivity|assumption].
    + apply (idsFresh_same_ids w w1); [now rewrite Hsr|assumption|assumption].
  - intros k q. pose proof (convertPrimaryToSecondary_cases k q w Ht) as H.
    destruct (convertPrimaryToSecondary k q w) as [w' [[]|e]]; simpl;
      destruct H as (Hr & _ & _ & Hn);
      apply (idsFresh_same_ids w w'); try assumption; rewrite Hr; [|reflexivity].
    rewrite convertRows_map, map_map. apply map_ext. intros c.
    apply convertRow_keeps_identity.
  - intros contacts mail phone. unfold handleContactChainMerging.
    destruct (1 <? List.length (contactGroupsOf contacts))%nat; [|exact Hfresh].
    destruct (oldestGroupPrimary (contactGroupsOf contacts)) as [oldest|]; [|exact Hfresh].
    unfold bind at 1. unfold bind at 1.
    destruct (forEachM (mergeGroup (id oldest)) (contactGroupsOf contacts) w)
      as [w1 r1] eqn:Eloop.
    destruct (merge_loop_prefix (id oldest) (contactGroupsOf contacts) w w1 r1 Ht Eloop)
      as (n & _ & Hrows & _ & _ & Hnid & _).
    assert (Hw1 : idsFresh w1).
    { apply (idsFresh_same_ids w w1); [|assumption|assumption].
      rewrite Hrows. apply mergedRows_ids. }
    destruct r1 as [l|e]; [|exact Hw1].
    unfold bind, getAllLinkedContactsById.
    destruct (query_select_keeps_store [IdEq 1; LinkedIdEq 1] [VNum (id oldest)] w1)
      as [Hqr Hqn].
    destruct (query (SelectContacts [IdEq 1; LinkedIdEq 1]) [VNum (id oldest)] w1)
      as [w2 [res|e]]; simpl in *;
      (apply (idsFresh_same_ids w1 w2); [now rewrite Hqr|assumption|assumption]).
Qed.

(** Witness for X14: the two clusters of the sample. *)
Lemma service_keeps_ids_unique_witness :
  idsFresh twoClusters
  /\ idsFresh (fst (identify bridgingRequest twoClusters))
  /\ idsFresh (fst (handleContactChainMerging (map Row [sampleA1; sampleB1; sampleB2])
                       None None twoClusters)).
Proof.
  assert (Hfresh : idsFresh twoClusters).
  { split.
    - simpl. repeat constructor; simpl; intuition lia.
    - simpl. intros c [<-|[<-|[<-|[]]]]; simpl; lia. }
  destruct (service_keeps_ids_unique twoClusters Hfresh eq_refl) as (H1 & _ & _ & _ & H5).
  split; [exact Hfresh|]. split; [apply H1|apply H5].
Defined.

(* ================================================================= *)
(** ** Further properties: the HTTP handler *)

(** X15: POST /identify answers 400, 200 or 500 and nothing else.  It
    answers 400 exactly when the body carries neither a non-empty email
    nor a non-empty phone number, and then without calling the service:
    the store is untouched and the validation error of identify is never
    what a client sees as a 500.  It answers 200 exactly when identify
    returns a response, which is the body sent.  Every other outcome, a
    store failure or an error thrown inside identify, is a 500 whose body
    is the fixed text "Internal server error".  A request that matches a
    stored contact is answered 500 and writes nothing. *)
Theorem postIdentify_status_codes (request : IdentifyRequest) (w : World) :
  let answer := snd (postIdentify request w) in
  let after := fst (postIdentify request w) in
  (status answer = 400 \/ status answer = 200 \/ status answer = 500)
  /\ (status answer = 400
      <-> truthy (reqEmail request) = false /\ truthy (reqPhoneNumber request) = false)
  /\ (status answer = 400 ->
      after = w
      /\ body answer = ErrorBody "Either email or phoneNumber must be provided"%string)
  /\ (status answer = 200
      <-> exists response, snd (identify request w) = Ok response)
  /\ (forall response, snd (identify request w) = Ok response ->
                       body answer = ContactBody response)
  /\ (status answer = 500 -> body answer = ErrorBody "Internal server error"%string)
  /\ (matchesOf (rows w) (reqEmail request) (reqPhoneNumber request) <> [] ->
      status answer = 500 /\ rows after = rows w).
Proof.
  intros answer after.
  pose proof (identify_with_match_writes_nothing request w) as Hmatch.
  pose proof (matchesOf_needs_identifier (rows w) (reqEmail request) (reqPhoneNumber request))
    as Hneeds.
  assert (Hvalid : truthy (reqEmail request) || truthy (reqPhoneNumber request) = false
                   -> identify request w = (w, Err ValidationError)).
  { intros H. apply orb_false_iff in H. destruct H as [Em Ep].
    unfold identify. rewrite Em, Ep. reflexivity. }
  unfold answer, after, postIdentify. clear answer after.
  destruct (truthy (reqEmail request)) eqn:Em, (truthy (reqPhoneNumber request)) eqn:Ep;
    simpl negb; simpl andb; cbv iota; simpl orb in *.
  4: { rewrite (Hvalid eq_refl). simpl.
       split; [now left|]. split; [tauto|]. split; [tauto|].
       split; [split; [discriminate|intros (r & H); discriminate]|].
       split; [intros r H; discriminate|]. split; [discriminate|].
       intros H. specialize (Hneeds H). discriminate. }
  all: destruct (identify request w) as [w' [r|e]]; simpl in *;
    (split; [auto|]);
    (split; [split; [discriminate|intros [H1 H2]; discriminate]|]);
    (split; [discriminate|]).
  all: try (split; [split; [intros _; exists r; reflexivity|reflexivity]|];
            split; [intros r' H; inversion H; reflexivity|];
            split; [discriminate|];
            intros H; destruct (Hmatch H) as (_ & _ & e & He); discriminate).
  all: split; [split; [discriminate|intros (r & H); discriminate]|];
       split; [intros r H; discriminate|];
       split; [reflexivity|];
       intros H; destruct (Hmatch H) as (Hr & _); auto.
Qed.

(** Witness for X15: the bridging request on the two clusters, and an
    empty body. *)
Lemma postIdentify_status_codes_witness :
  status (snd (postIdentify bridgingRequest twoClusters)) = 500
  /\ rows (fst (postIdentify bridgingRequest twoClusters)) = rows twoClusters
  /\ fst (postIdentify (mkRequest None None) twoClusters) = twoClusters.
Proof.
  destruct (postIdentify_status_codes bridgingRequest twoClusters)
    as (_ & _ & _ & _ & _ & _ & Hmatch).
  destruct (postIdentify_status_codes (mkRequest None None) twoClusters)
    as (_ & H400 & Hsame & _).
  assert (Hm : matchesOf (rows twoClusters) (reqEmail bridgingRequest)
                 (reqPhoneNumber bridgingRequest) <> [])
    by (vm_compute; discriminate).
  destruct (Hmatch Hm) as [H1 H2].
  split; [exact H1|]. split; [exact H2|].
  apply Hsame. apply H400. split; reflexivity.
Defined.

(* ================================================================= *)
(** ** Further properties: the reads the merge relies on *)

(** X16: [findOldestPrimary] returns nothing exactly when the list holds
    no primary; otherwise it returns a member of the list that is a
    primary and that no primary of the list was created before. *)
Theorem findOldestPrimary_is_an_oldest_primary (contacts : list Contact) :
  (findOldestPrimary contacts = None
   <-> forall c, In c contacts -> isPrimary c = false)
  /\ (forall p, findOldestPrimary contacts = Some p ->
        In p contacts /\ isPrimary p = true
        /\ forall c, In c contacts -> isPrimary c = true -> createdAt p <= createdAt c).
Proof.
  unfold findOldestPrimary. split.
  - split.
    + intros H c Hc. destruct (isPrimary c) eqn:Ep; [|reflexivity].
      assert (Hin : In c (sortByCreatedAt (filter isPrimary contacts))).
      { apply sortByCreatedAt_In, filter_In. auto. }
      destruct (sortByCreatedAt (filter isPrimary contacts)); [contradiction|discriminate].
    + intros H.
      assert (E : filter isPrimary contacts = []) by (now apply filter_nil_iff).
      rewrite E. reflexivity.
  - intros p Hp.
    destruct (sortByCreatedAt_head_first_earliest _ _ Hp) as (before & after & E & Hb & Ha).
    assert (Hin : In p (filter isPrimary contacts)).
    { rewrite E. apply in_or_app. right. now left. }
    apply filter_In in Hin. destruct Hin as [Hin Hprim].
    split; [assumption|]. split; [assumption|].
    intros c Hc Hcp.
    assert (Hcin : In c (filter isPrimary contacts)) by (apply filter_In; auto).
    rewrite E in Hcin. apply in_app_or in Hcin.
    destruct Hcin as [Hc1|[->|Hc2]].
    + specialize (Hb c Hc1). lia.
    + lia.
    + now apply Ha.
Qed.



(** Witness for X16: the two primaries of the sample, the younger listed
    first. *)
Lemma findOldestPrimary_is_an_oldest_primary_witness :
  findOldestPrimary [sampleB1; sampleB2; sampleA1] = Some sampleA1
  /\ In sampleA1 [sampleB1; sampleB2; sampleA1]
  /\ (forall c, In c [sampleB1; sampleB2; sampleA1] -> isPrimary c = true ->
                createdAt sampleA1 <= createdAt c)
  /\ findOldestPrimary [sampleB2] = None.
Proof.
  destruct (findOldestPrimary_is_an_oldest_primary [sampleB1; sampleB2; sampleA1])
    as [_ Hsome].
  destruct (findOldestPrimary_is_an_oldest_primary [sampleB2]) as [Hnone _].
  assert (E : findOldestPrimary [sampleB1; sampleB2; sampleA1] = Some sampleA1)
    by (vm_compute; reflexivity).
  destruct (Hsome sampleA1 E) as (Hin & _ & Hmin).
  split; [exact E|]. split; [exact Hin|]. split; [exact Hmin|].
  apply Hnone. intros c [<-|[]]. reflexivity.
Defined.

(** Witness for X7: the two clusters of the sample. *)
Lemma contactGroups_partition_the_contacts_witness :
  [Row sampleB1; Row sampleB2]
  = groupMembers (KNum 2) (map Row [sampleA1; sampleB1; sampleB2])
  /\ In (KNum 1, groupMembers (KNum 1) (map Row [sampleA1; sampleB1; sampleB2]))
       (contactGroupsOf (map Row [sampleA1; sampleB1; sampleB2])).
Proof.
  destruct (contactGroups_partition_the_contacts (map Row [sampleA1; sampleB1; sampleB2]))
    as (_ & Hgroup & Hmember & _).
  split.
  - apply (Hgroup (KNum 2) [Row sampleB1; Row sampleB2]).
    vm_compute. right. left. reflexivity.
  - apply (Hmember (Row sampleA1)). left. reflexivity.
Defined.
